(** * Particle Lenia 3D: the simulation core of [main.js]

    A shallow embedding of the field computation and integration step of
    [main.js] (Kernel Math, Particle State Store, Field Computer, Growth
    Integrator, Boundary Wrapper), and the properties of its specification.

    JavaScript numbers are IEEE-754 doubles.  The program is embedded once,
    over an abstract number type carrying exactly the operations the source
    uses ([JsNumber]); nothing is assumed about them.  Three instances
    follow:
    - [FloatNumber], Rocq's primitive binary64 floats, on which the
      definitions run as the program does;
    - [RealNumber], the real numbers, the exact-arithmetic reading in which
      the algebraic properties of the specification are stated and proved;
    - [CheckedReal], the real numbers with a division that fails on a zero
      divisor, to tell whether the program ever divides by zero.
    Properties that only depend on the shape of the computation are proved
    for every instance. *)

From Stdlib Require Import Reals Lra Lia List ZArith Bool.
From Stdlib Require Import Floats.PrimFloat.
From Stdlib Require String.
Import ListNotations.
Import String.StringSyntax.
Delimit Scope string_scope with string.

Set Implicit Arguments.

(** ** Numbers *)

Declare Scope num_scope.
Delimit Scope num_scope with num.

Class JsNumber (F : Type) : Type := {
  num0 : F;                      (* 0, 0.0 *)
  num1 : F;                      (* 1.0 *)
  num2 : F;                      (* 2, 2.0 *)
  num32 : F;                     (* 32.0 *)
  numHalf : F;                   (* 0.5 *)
  numEps : F;                    (* 1e-20 *)
  nadd : F -> F -> F;            (* a + b *)
  nsub : F -> F -> F;            (* a - b *)
  nmul : F -> F -> F;            (* a * b *)
  ndiv : F -> F -> F;            (* a / b *)
  nneg : F -> F;                 (* -a *)
  nsqrt : F -> F;                (* Math.sqrt(a) *)
  nmax : F -> F -> F;            (* Math.max(a, b) *)
  nltb : F -> F -> bool          (* a < b *)
}.

Notation "a + b" := (nadd a b) : num_scope.
Notation "a - b" := (nsub a b) : num_scope.
Notation "a * b" := (nmul a b) : num_scope.
Notation "a / b" := (ndiv a b) : num_scope.
Notation "- a" := (nneg a) : num_scope.
Notation "a <? b" := (nltb a b) : num_scope.
Notation "a >? b" := (nltb b a) (only parsing) : num_scope.

(** ** Errors

    The only way the modelled code can fail is by reading a property of
    [undefined] (an index past the end of the [particles] array). *)

Inductive JsError : Type :=
| TypeError.

Inductive outcome (A : Type) : Type :=
| Returned (a : A)
| Thrown (e : JsError).

Arguments Thrown {A} e.

Definition bind {A B : Type} (m : outcome A) (k : A -> outcome B) : outcome B :=
  match m with
  | Returned a => k a
  | Thrown e => Thrown e
  end.

Notation "x <- m ;; k" := (bind m (fun x => k))
  (at level 61, m at next level, right associativity).

Definition outcome_map {A B : Type} (f : A -> B) (m : outcome A) : outcome B :=
  x <- m ;; Returned (f x).

(** ** Data model *)

(** [THREE.Vector3]: three number components. *)
Record Vec3 (F : Type) : Type := mkVec3 { vx : F; vy : F; vz : F }.

(** [config.leniaParams]. *)
Record LeniaParams (F : Type) : Type := mkLeniaParams {
  mu_k : F;
  sigma_k : F;
  w_k : F;
  mu_g : F;
  sigma_g : F;
  c_rep : F;
  dt : F;
  steps_per_frame : Z
}.

(** [config].  [particleCount] is an integer-valued number. *)
Record Config (F : Type) : Type := mkConfig {
  particleCount : Z;
  worldSize : F;
  initialSpread : F;
  particleRenderSize : F;
  leniaParams : LeniaParams F;
  damping : F
}.

(** [class Particle].  [mesh] is the display handle; of the mesh only the
    position copied into it is kept, [None] is [null]. *)
Record Particle (F : Type) : Type := mkParticle {
  position : Vec3 F;
  velocity : Vec3 F;
  R_val : F;
  U_val : F;
  R_grad : Vec3 F;
  U_grad : Vec3 F;
  mesh : option (Vec3 F)
}.

Arguments position {F} p.
Arguments velocity {F} p.
Arguments R_val {F} p.
Arguments U_val {F} p.
Arguments R_grad {F} p.
Arguments U_grad {F} p.
Arguments mesh {F} p.

(** The global [particles] array. *)
Definition Store (F : Type) : Type := list (Particle F).

(** Field assignments [p.f = v]. *)
Definition set_position {F} (v : Vec3 F) (p : Particle F) : Particle F :=
  mkParticle v (velocity p) (R_val p) (U_val p) (R_grad p) (U_grad p) (mesh p).
Definition set_velocity {F} (v : Vec3 F) (p : Particle F) : Particle F :=
  mkParticle (position p) v (R_val p) (U_val p) (R_grad p) (U_grad p) (mesh p).
Definition set_R_val {F} (x : F) (p : Particle F) : Particle F :=
  mkParticle (position p) (velocity p) x (U_val p) (R_grad p) (U_grad p) (mesh p).
Definition set_U_val {F} (x : F) (p : Particle F) : Particle F :=
  mkParticle (position p) (velocity p) (R_val p) x (R_grad p) (U_grad p) (mesh p).
Definition set_R_grad {F} (v : Vec3 F) (p : Particle F) : Particle F :=
  mkParticle (position p) (velocity p) (R_val p) (U_val p) v (U_grad p) (mesh p).
Definition set_U_grad {F} (v : Vec3 F) (p : Particle F) : Particle F :=
  mkParticle (position p) (velocity p) (R_val p) (U_val p) (R_grad p) v (mesh p).
Definition set_mesh {F} (m : option (Vec3 F)) (p : Particle F) : Particle F :=
  mkParticle (position p) (velocity p) (R_val p) (U_val p) (R_grad p) (U_grad p) m.

(** In-place mutation of [particles[i]]: the element at index [i] is replaced
    by [f] of it; nothing happens past the end. *)
Fixpoint modify {A : Type} (i : nat) (f : A -> A) (l : list A) : list A :=
  match l with
  | [] => []
  | x :: l' =>
      match i with
      | O => f x :: l'
      | S i' => x :: modify i' f l'
      end
  end.

(** [for (const p of particles) { body }], with a body that mutates [p] in
    place: [forOfFrom body k n ps] runs the [n] iterations that start at
    index [k]. *)
Fixpoint forOfFrom {A : Type} (body : A -> A) (k n : nat) (ps : list A) : list A :=
  match n with
  | O => ps
  | S n' => forOfFrom body (S k) n' (modify k body ps)
  end.

Definition forOf {A : Type} (body : A -> A) (ps : list A) : list A :=
  forOfFrom body 0 (length ps) ps.

(** The same loop, observed: the array after each of the [n] iterations that
    start at index [k], in the order of the iterations. *)
Fixpoint forOfStates {A : Type} (body : A -> A) (k n : nat) (ps : list A)
  : list (list A) :=
  match n with
  | O => []
  | S n' =>
      let ps' := modify k body ps in
      ps' :: forOfStates body (S k) n' ps'
  end.

(** [for (let i = start; i < start + n; i++) { body }] with a body that may
    throw. *)
Fixpoint forRange {St : Type} (body : nat -> St -> outcome St) (start n : nat)
  (s : St) : outcome St :=
  match n with
  | O => Returned s
  | S n' => s' <- body start s ;; forRange body (S start) n' s'
  end.

Section Core.

Context {F : Type} `{JsNumber F}.

(** *** three.js [Vector3] methods used by the program *)

(** [new THREE.Vector3()] and [v.set(0, 0, 0)]. *)
Definition vzero : Vec3 F := mkVec3 num0 num0 num0.

(** [new THREE.Vector3().subVectors(a, b)]. *)
Definition subVectors (a b : Vec3 F) : Vec3 F :=
  (mkVec3 (vx a - vx b) (vy a - vy b) (vz a - vz b))%num.

(** [v.length()]. *)
Definition vlength (v : Vec3 F) : F :=
  (nsqrt (vx v * vx v + vy v * vy v + vz v * vz v))%num.

(** [v.multiplyScalar(s)]. *)
Definition multiplyScalar (v : Vec3 F) (s : F) : Vec3 F :=
  (mkVec3 (vx v * s) (vy v * s) (vz v * s))%num.

(** [a.addScaledVector(v, s)]. *)
Definition addScaledVector (a v : Vec3 F) (s : F) : Vec3 F :=
  (mkVec3 (vx a + vx v * s) (vy a + vy v * s) (vz a + vz v * s))%num.

(** [g.x += nx * d; g.y += ny * d; g.z += nz * d]. *)
Definition addGrad (n : Vec3 F) (d : F) (g : Vec3 F) : Vec3 F :=
  (mkVec3 (vx g + vx n * d) (vy g + vy n * d) (vz g + vz n * d))%num.

(** [g.x -= nx * d; g.y -= ny * d; g.z -= nz * d]. *)
Definition subGrad (n : Vec3 F) (d : F) (g : Vec3 F) : Vec3 F :=
  (mkVec3 (vx g - vx n * d) (vy g - vy n * d) (vz g - vz n * d))%num.

(** The opposite vector (no method of the program: the statements about
    mirror images are written with it). *)
Definition vneg (v : Vec3 F) : Vec3 F :=
  (mkVec3 (- vx v) (- vy v) (- vz v))%num.

(** *** Lenia math helper functions *)

(** [fastExp(x)]: [(1 + x/32)^32] by five squarings. *)
Definition fastExp (x : F) : F :=
  (let t := num1 + x / num32 in
   let t := t * t in
   let t := t * t in
   let t := t * t in
   let t := t * t in
   let t := t * t in
   t)%num.

(** [peakFunction(r, mu, sigma, w)]: the pair [value, derivative]. *)
Definition peakFunction (r mu sigma w : F) : F * F :=
  (let t := (r - mu) / sigma in
   let y_val := w / fastExp (t * t) in
   let deriv := (- num2) * t * y_val / sigma in
   (y_val, deriv))%num.

(** [repulsionFunction(r, c_rep)]: the pair [value, derivative]. *)
Definition repulsionFunction (r c : F) : F * F :=
  (let t := nmax (num1 - r) num0 in
   let val := numHalf * c * t * t in
   let deriv := (- c) * t in
   (val, deriv))%num.

(** *** Particle State Store *)

(** [new Particle()].  [Math.random()] is the stream [rand]; the constructor
    takes the three draws [rand k], [rand (k+1)], [rand (k+2)], in this
    order, for x, y and z. *)
Definition newParticle (cfg : Config F) (rand : nat -> F) (k : nat) : Particle F :=
  (mkParticle
     (mkVec3 ((rand k - numHalf) * initialSpread cfg)
             ((rand (k + 1)%nat - numHalf) * initialSpread cfg)
             ((rand (k + 2)%nat - numHalf) * initialSpread cfg))
     vzero
     num0
     num0
     vzero
     vzero
     None)%num.

(** The creation loop of [initParticles]: [n] iterations left, [k] random
    numbers drawn so far, [acc] the array built so far. *)
Fixpoint initLoop (cfg : Config F) (rand : nat -> F) (n k : nat) (acc : Store F)
  : Store F :=
  match n with
  | O => acc
  | S n' =>
      let p := newParticle cfg rand k in
      let p := set_mesh (Some (position p)) p in
      initLoop cfg rand n' (k + 3) (acc ++ [p])
  end.

(** [initParticles()]: the array is emptied and [particleCount] particles
    are pushed ([i < config.particleCount] from [i = 0]: no iteration for a
    negative count).  The scene bookkeeping is display only.  The function
    has no failing path. *)
Definition initParticles (cfg : Config F) (rand : nat -> F) : outcome (Store F) :=
  Returned (initLoop cfg rand (Z.to_nat (particleCount cfg)) 0 []).

(** *** Field Computer *)

(** Body of the first loop of [computeFields]: the self-terms. *)
Definition resetFields (cfg : Config F) (p : Particle F) : Particle F :=
  let lp := leniaParams cfg in
  let p := set_R_val (fst (repulsionFunction num0 (c_rep lp))) p in
  let p := set_U_val (fst (peakFunction num0 (mu_k lp) (sigma_k lp) (w_k lp))) p in
  let p := set_R_grad vzero p in
  set_U_grad vzero p.

(** [diff.length() + 1e-20] for [diff = p1.position - p2.position]. *)
Definition pairDistance (pos1 pos2 : Vec3 F) : F :=
  (vlength (subVectors pos1 pos2) + numEps)%num.

(** [norm_rx, norm_ry, norm_rz]. *)
Definition pairDirection (pos1 pos2 : Vec3 F) : Vec3 F :=
  (let diff := subVectors pos1 pos2 in
   let r := pairDistance pos1 pos2 in
   mkVec3 (vx diff / r) (vy diff / r) (vz diff / r))%num.

(** The block under [if (r < 1.0)]: the repulsion terms of the pair, for the
    distance [r] and the direction [n].  [p1] and [p2] are references into
    the array: every update is made in the array, at its index. *)
Definition addRepulsion (cfg : Config F) (i j : nat) (r : F) (n : Vec3 F)
  (ps : Store F) : Store F :=
  let R := fst (repulsionFunction r (c_rep (leniaParams cfg))) in
  let dR := snd (repulsionFunction r (c_rep (leniaParams cfg))) in
  let ps := modify i (fun p => set_R_grad (addGrad n dR (R_grad p)) p) ps in
  let ps := modify j (fun p => set_R_grad (subGrad n dR (R_grad p)) p) ps in
  let ps := modify i (fun p => set_R_val (R_val p + R)%num p) ps in
  modify j (fun p => set_R_val (R_val p + R)%num p) ps.

(** The kernel terms of the pair. *)
Definition addKernel (cfg : Config F) (i j : nat) (r : F) (n : Vec3 F)
  (ps : Store F) : Store F :=
  let lp := leniaParams cfg in
  let K := fst (peakFunction r (mu_k lp) (sigma_k lp) (w_k lp)) in
  let dK := snd (peakFunction r (mu_k lp) (sigma_k lp) (w_k lp)) in
  let ps := modify i (fun p => set_U_grad (addGrad n dK (U_grad p)) p) ps in
  let ps := modify j (fun p => set_U_grad (subGrad n dK (U_grad p)) p) ps in
  let ps := modify i (fun p => set_U_val (U_val p + K)%num p) ps in
  modify j (fun p => set_U_val (U_val p + K)%num p) ps.

(** Body of the inner loop of [computeFields] for the indices [i], [j]:
    reading a field of [particles[i]] or [particles[j]] past the end of the
    array throws. *)
Definition pairInteraction (cfg : Config F) (i j : nat) (ps : Store F)
  : outcome (Store F) :=
  match nth_error ps i, nth_error ps j with
  | Some p1, Some p2 =>
      let r := pairDistance (position p1) (position p2) in
      let n := pairDirection (position p1) (position p2) in
      let ps := if (r <? num1)%num then addRepulsion cfg i j r n ps else ps in
      Returned (addKernel cfg i j r n ps)
  | _, _ => Thrown TypeError
  end.

(** The inner loop, [for (let j = i + 1; j < count; j++)]. *)
Definition pairRow (cfg : Config F) (count i : nat) (ps : Store F)
  : outcome (Store F) :=
  forRange (pairInteraction cfg i) (i + 1) (count - (i + 1)) ps.

(** [computeFields()].  The pair loops are bounded by [config.particleCount],
    not by the length of the array. *)
Definition computeFields (cfg : Config F) (ps : Store F) : outcome (Store F) :=
  let count := Z.to_nat (particleCount cfg) in
  let ps := forOf (resetFields cfg) ps in
  forRange (pairRow cfg count) 0 count ps.

(** *** Growth Integrator and Boundary Wrapper *)

(** [force] of the first loop of [simulationStep]. *)
Definition particleForce (cfg : Config F) (p : Particle F) : Vec3 F :=
  let lp := leniaParams cfg in
  let dG_val := snd (peakFunction (U_val p) (mu_g lp) (sigma_g lp) num1) in
  let dG_U_grad := multiplyScalar (U_grad p) dG_val in
  subVectors dG_U_grad (R_grad p).

(** Body of the first loop of [simulationStep]. *)
Definition updateVelocity (cfg : Config F) (p : Particle F) : Particle F :=
  let force := particleForce cfg p in
  let p := set_velocity (addScaledVector (velocity p) force (dt (leniaParams cfg))) p in
  set_velocity (multiplyScalar (velocity p) (damping cfg)) p.

(** [p.position.addScaledVector(p.velocity, dt)]. *)
Definition advancePosition (cfg : Config F) (p : Particle F) : Particle F :=
  set_position (addScaledVector (position p) (velocity p) (dt (leniaParams cfg))) p.

(** The two tests made on one coordinate, in the order of the source. *)
Definition wrapAxis (cfg : Config F) (x : F) : F :=
  (let halfWorld := worldSize cfg / num2 in
   let x := if x <? - halfWorld then x + worldSize cfg else x in
   if x >? halfWorld then x - worldSize cfg else x)%num.

(** The six tests on [p.position]: x, then y, then z. *)
Definition wrapVector (cfg : Config F) (v : Vec3 F) : Vec3 F :=
  mkVec3 (wrapAxis cfg (vx v)) (wrapAxis cfg (vy v)) (wrapAxis cfg (vz v)).

Definition wrapPosition (cfg : Config F) (p : Particle F) : Particle F :=
  set_position (wrapVector cfg (position p)) p.

(** Body of the second loop of [simulationStep]. *)
Definition updatePosition (cfg : Config F) (p : Particle F) : Particle F :=
  wrapPosition cfg (advancePosition cfg p).

(** [simulationStep()], with every state the [particles] array goes through
    once the fields are computed: the array as [computeFields()] leaves it,
    then the array after each iteration of the first loop (the velocities),
    then, from the array the first loop has left, the array after each
    iteration of the second loop (the positions and the boundary wrap). *)
Definition simulationStepStates (cfg : Config F) (ps : Store F)
  : outcome (list (Store F)) :=
  fs <- computeFields cfg ps ;;
  let velocityStates := forOfStates (updateVelocity cfg) 0 (length fs) fs in
  let vs := last velocityStates fs in
  let positionStates := forOfStates (updatePosition cfg) 0 (length vs) vs in
  Returned (fs :: velocityStates ++ positionStates).

(** [simulationStep()]: the array as the call leaves it, the last of these
    states. *)
Definition simulationStep (cfg : Config F) (ps : Store F) : outcome (Store F) :=
  states <- simulationStepStates cfg ps ;;
  Returned (last states ps).

(** [n] calls of [simulationStep()] in a row, as in the loop of [animate]. *)
Definition runSteps (cfg : Config F) (n : nat) (ps : Store F) : outcome (Store F) :=
  forRange (fun _ => simulationStep cfg) 0 n ps.

(** What the Field Computer must not touch. *)
Definition frameView (p : Particle F) : Vec3 F * Vec3 F * option (Vec3 F) :=
  (position p, velocity p, mesh p).

(** What the Field Computer reads and writes of a particle. *)
Definition accumulators (p : Particle F) : F * F * Vec3 F * Vec3 F :=
  (R_val p, U_val p, R_grad p, U_grad p).

Definition fieldView (p : Particle F) : Vec3 F * (F * F * Vec3 F * Vec3 F) :=
  (position p, accumulators p).

End Core.

(** ** The number instances *)

(** *** IEEE-754 binary64 *)

(** [Math.max(a, b)]: NaN if either is NaN, and [+0] is larger than [-0]. *)
Definition float_max (a b : float) : float :=
  if is_nan a || is_nan b then nan
  else if PrimFloat.ltb a b then b
  else if PrimFloat.ltb b a then a
  else if is_zero a then PrimFloat.add a b
  else a.

(** [1e-20] is the double nearest to it, as in JavaScript. *)
#[export] Instance FloatNumber : JsNumber float := {|
  num0 := 0%float;
  num1 := 1%float;
  num2 := 2%float;
  num32 := 32%float;
  numHalf := 0.5%float;
  numEps := 0x1.79ca10c924223p-67%float;
  nadd := PrimFloat.add;
  nsub := PrimFloat.sub;
  nmul := PrimFloat.mul;
  ndiv := PrimFloat.div;
  nneg := PrimFloat.opp;
  nsqrt := PrimFloat.sqrt;
  nmax := float_max;
  nltb := PrimFloat.ltb
|}.

(** *** Real numbers

    Exact arithmetic.  The division of [R] is total ([x / 0] is a real
    number), where the division of doubles by zero gives an infinity or NaN:
    a statement over [R] says something of the program only where no
    divisor is zero.  The program divides by [sigma_k] and [sigma_g]
    ([peakFunction]).  The statements about the values computed from these
    quotients assume both different from zero; the statements about which
    term is added to which particle, or about how the positions enter, hold
    whatever the quotients are.  [CheckedReal] below detects every division
    by zero. *)

Definition Rltb (a b : R) : bool := if Rlt_dec a b then true else false.

#[export] Instance RealNumber : JsNumber R := {|
  num0 := 0%R;
  num1 := 1%R;
  num2 := 2%R;
  num32 := 32%R;
  numHalf := (1 / 2)%R;
  numEps := (1 / 10 ^ 20)%R;
  nadd := Rplus;
  nsub := Rminus;
  nmul := Rmult;
  ndiv := Rdiv;
  nneg := Ropp;
  nsqrt := R_sqrt.sqrt;
  nmax := Rmax;
  nltb := Rltb
|}.

(** *** Real numbers with checked division

    The reals again, with one more value, [None], for "a division by zero
    was made": [a / b] is [None] when [b] is zero, and every operation on
    [None] gives [None].  Running the program on this instance tells
    whether it ever divides by zero. *)

Definition lift1 (f : R -> R) (a : option R) : option R :=
  match a with
  | Some x => Some (f x)
  | None => None
  end.

Definition lift2 (f : R -> R -> R) (a b : option R) : option R :=
  match a, b with
  | Some x, Some y => Some (f x y)
  | _, _ => None
  end.

Definition checkedDiv (a b : option R) : option R :=
  match a, b with
  | Some x, Some y => if Req_EM_T y 0 then None else Some (x / y)%R
  | _, _ => None
  end.

Definition checkedLtb (a b : option R) : bool :=
  match a, b with
  | Some x, Some y => Rltb x y
  | _, _ => false
  end.

#[export] Instance CheckedReal : JsNumber (option R) := {|
  num0 := Some 0%R;
  num1 := Some 1%R;
  num2 := Some 2%R;
  num32 := Some 32%R;
  numHalf := Some (1 / 2)%R;
  numEps := Some (1 / 10 ^ 20)%R;
  nadd := lift2 Rplus;
  nsub := lift2 Rminus;
  nmul := lift2 Rmult;
  ndiv := checkedDiv;
  nneg := lift1 Ropp;
  nsqrt := lift1 R_sqrt.sqrt;
  nmax := lift2 Rmax;
  nltb := checkedLtb
|}.

(** Reading a vector, a configuration, a particle in another number type. *)
Definition mapVec3 {A B : Type} (f : A -> B) (v : Vec3 A) : Vec3 B :=
  mkVec3 (f (vx v)) (f (vy v)) (f (vz v)).

Definition mapLeniaParams {A B : Type} (f : A -> B) (lp : LeniaParams A)
  : LeniaParams B :=
  mkLeniaParams (f (mu_k lp)) (f (sigma_k lp)) (f (w_k lp)) (f (mu_g lp))
    (f (sigma_g lp)) (f (c_rep lp)) (f (dt lp)) (steps_per_frame lp).

Definition mapConfig {A B : Type} (f : A -> B) (cfg : Config A) : Config B :=
  mkConfig (particleCount cfg) (f (worldSize cfg)) (f (initialSpread cfg))
    (f (particleRenderSize cfg)) (mapLeniaParams f (leniaParams cfg))
    (f (damping cfg)).

Definition mapParticle {A B : Type} (f : A -> B) (p : Particle A) : Particle B :=
  mkParticle (mapVec3 f (position p)) (mapVec3 f (velocity p)) (f (R_val p))
    (f (U_val p)) (mapVec3 f (R_grad p)) (mapVec3 f (U_grad p))
    (option_map (mapVec3 f) (mesh p)).

(** ** Configurations *)

(** The [config] object of [main.js], read as doubles. *)
#[warnings="-inexact-float"]
Definition config : Config float :=
  mkConfig 200 25.0%float 12.0%float 0.1%float
    (mkLeniaParams 4.0%float 1.0%float 0.022%float 0.6%float 0.15%float
       1.0%float 0.1%float 10)
    0.98%float.

(** The same object, its decimal literals read exactly. *)
Definition configR : Config R :=
  mkConfig 200 25%R 12%R (1 / 10)%R
    (mkLeniaParams 4%R 1%R (22 / 1000)%R (6 / 10)%R (15 / 100)%R 1%R (1 / 10)%R 10)
    (98 / 100)%R.

(** A configuration that breaks every other constraint of the
    specification: no world, a negative spread, a zero [sigma_k] and a
    negative [sigma_g]. *)
Definition invalidConfig : Config R :=
  mkConfig 2 0%R (-1)%R (1 / 10)%R
    (mkLeniaParams 4%R 0%R (22 / 1000)%R (6 / 10)%R (-1)%R 1%R (1 / 10)%R 10)
    (98 / 100)%R.

(** A [Math.random()] that always answers one half. *)
Definition randHalf : nat -> R := fun _ => (1 / 2)%R.

(** [config] with another [particleCount]. *)
Definition withParticleCount {F : Type} (n : Z) (cfg : Config F) : Config F :=
  mkConfig n (worldSize cfg) (initialSpread cfg) (particleRenderSize cfg)
    (leniaParams cfg) (damping cfg).

(** [config] with another [sigma_k], [sigma_g], [mu_k], [worldSize]. *)
Definition withLeniaParams {F : Type} (lp : LeniaParams F) (cfg : Config F)
  : Config F :=
  mkConfig (particleCount cfg) (worldSize cfg) (initialSpread cfg)
    (particleRenderSize cfg) lp (damping cfg).

Definition withSigmaK {F : Type} (s : F) (cfg : Config F) : Config F :=
  let lp := leniaParams cfg in
  withLeniaParams
    (mkLeniaParams (mu_k lp) s (w_k lp) (mu_g lp) (sigma_g lp) (c_rep lp) (dt lp)
       (steps_per_frame lp)) cfg.

Definition withSigmaG {F : Type} (s : F) (cfg : Config F) : Config F :=
  let lp := leniaParams cfg in
  withLeniaParams
    (mkLeniaParams (mu_k lp) (sigma_k lp) (w_k lp) (mu_g lp) s (c_rep lp) (dt lp)
       (steps_per_frame lp)) cfg.

Definition withMuK {F : Type} (mu : F) (cfg : Config F) : Config F :=
  let lp := leniaParams cfg in
  withLeniaParams
    (mkLeniaParams mu (sigma_k lp) (w_k lp) (mu_g lp) (sigma_g lp) (c_rep lp)
       (dt lp) (steps_per_frame lp)) cfg.

Definition withWorldSize {F : Type} (w : F) (cfg : Config F) : Config F :=
  mkConfig (particleCount cfg) w (initialSpread cfg) (particleRenderSize cfg)
    (leniaParams cfg) (damping cfg).

(** A particle at rest at [(x, y, z)], as the constructor leaves it. *)
Definition particleAt {F : Type} `{JsNumber F} (x y z : F) : Particle F :=
  mkParticle (mkVec3 x y z) vzero num0 num0 vzero vzero None.

(** A particle at [(x, 0, 0)] moving along x at speed [v]. *)
Definition particleMoving {F : Type} `{JsNumber F} (x v : F) : Particle F :=
  mkParticle (mkVec3 x num0 num0) (mkVec3 v num0 num0) num0 num0 vzero vzero None.

(** The scenario of the specification: two particles at rest at
    [(-1, 0, 0)] and [(1, 0, 0)], as doubles and as reals; and the same
    positions with other velocities and accumulators left in the store. *)
Definition scenario : Store float :=
  [particleAt (-1)%float 0%float 0%float; particleAt 1%float 0%float 0%float].

Definition scenarioR : Store R :=
  [particleAt (-1)%R 0%R 0%R; particleAt 1%R 0%R 0%R].

Definition scenarioUsed : Store float :=
  [mkParticle (mkVec3 (-1)%float 0%float 0%float) (mkVec3 3%float 0%float 1%float)
     7%float 8%float (mkVec3 1%float 2%float 3%float) (mkVec3 4%float 5%float 6%float)
     None;
   mkParticle (mkVec3 1%float 0%float 0%float) (mkVec3 0%float 2%float 0%float)
     9%float 1%float (mkVec3 6%float 5%float 4%float) (mkVec3 3%float 2%float 1%float)
     None].

(** The closed cube [[-worldSize/2, worldSize/2]], per coordinate and per
    vector, and the half-open interval of the specification. *)
Definition inWorld (cfg : Config R) (x : R) : Prop :=
  (- (worldSize cfg / 2) <= x <= worldSize cfg / 2)%R.

Definition inWorldHalfOpen (cfg : Config R) (x : R) : Prop :=
  (- (worldSize cfg / 2) <= x < worldSize cfg / 2)%R.

Definition vecInWorld (cfg : Config R) (v : Vec3 R) : Prop :=
  inWorld cfg (vx v) /\ inWorld cfg (vy v) /\ inWorld cfg (vz v).

(** A displacement of at most one world size per coordinate. *)
Definition withinOneWorld (cfg : Config R) (d : Vec3 R) : Prop :=
  (- worldSize cfg <= vx d <= worldSize cfg /\
   - worldSize cfg <= vy d <= worldSize cfg /\
   - worldSize cfg <= vz d <= worldSize cfg)%R.

(** Two particles that mirror each other through the origin. *)
Definition mirrored (a b : Particle R) : Prop :=
  position a = vneg (position b) /\ velocity a = vneg (velocity b).

(** ** Further notions *)

(** Sum of vectors, component by component (no method of the program). *)
Definition vadd {F : Type} `{JsNumber F} (a b : Vec3 F) : Vec3 F :=
  (mkVec3 (vx a + vx b) (vy a + vy b) (vz a + vz b))%num.

Definition sumVectors {F : Type} `{JsNumber F} (l : list (Vec3 F)) : Vec3 F :=
  fold_right vadd vzero l.

(** The particle moved by the vector [t], everything else kept. *)
Definition translate {F : Type} `{JsNumber F} (t : Vec3 F) (p : Particle F)
  : Particle F :=
  set_position (vadd (position p) t) p.

(** The image of a particle under the point reflection through the origin:
    position, velocity and both gradients are replaced by their opposites. *)
Definition reflect {F : Type} `{JsNumber F} (p : Particle F) : Particle F :=
  mkParticle (vneg (position p)) (vneg (velocity p)) (R_val p) (U_val p)
    (vneg (R_grad p)) (vneg (U_grad p)) (mesh p).

(** The store [s] has the length of [ps0] and gradients that add up to
    zero. *)
Definition gradientsBalanced (ps0 s : Store R) : Prop :=
  length s = length ps0 /\
  sumVectors (map R_grad s) = vzero /\
  sumVectors (map U_grad s) = vzero.

(** The positions of [s] are those of [ps0], and the particle at [k] has
    its repulsion accumulators still at their self-terms. *)
Definition untouchedAt {F : Type} `{JsNumber F} (cfg : Config F) (ps0 : Store F)
  (k : nat) (s : Store F) : Prop :=
  map position s = map position ps0 /\
  exists q,
    nth_error s k = Some q /\
    R_val q = fst (repulsionFunction num0 (c_rep (leniaParams cfg))) /\
    R_grad q = vzero.

(** ** The application around the core

    The state [main.js] keeps between events: the [particles] array, the
    [isPaused] flag, the text of the start/stop button ([None] when the page
    has no element with id [startStopButton]), and the numbers
    [Math.random()] is still to return. *)
Record App (F : Type) : Type := mkApp {
  particles : Store F;
  isPaused : bool;
  startStopText : option String.string;
  randomNumbers : nat -> F
}.

Arguments particles {F} a.
Arguments isPaused {F} a.
Arguments startStopText {F} a.
Arguments randomNumbers {F} a.

(** [if (button) button.textContent = text]. *)
Definition setButtonText (text : String.string) (button : option String.string)
  : option String.string :=
  match button with
  | Some _ => Some text
  | None => None
  end.

(** [isPaused ? 'Resume' : 'Pause']. *)
Definition pauseLabel (paused : bool) : String.string :=
  if paused then "Resume"%string else "Pause"%string.

(** [if (p.mesh) p.mesh.position.copy(p.position)]. *)
Definition syncMesh {F : Type} (p : Particle F) : Particle F :=
  match mesh p with
  | Some _ => set_mesh (Some (position p)) p
  | None => p
  end.

(** [animate()], one frame: unless paused, [steps_per_frame] steps and then
    the copy of every position into its mesh.  Scheduling the next frame
    and rendering are display only. *)
Definition animate {F : Type} `{JsNumber F} (cfg : Config F) (app : App F)
  : outcome (App F) :=
  if isPaused app then Returned app
  else
    ps <- runSteps cfg (Z.to_nat (steps_per_frame (leniaParams cfg))) (particles app) ;;
    Returned (mkApp (forOf syncMesh ps) (isPaused app) (startStopText app)
                (randomNumbers app)).

(** [handleStartStop()]. *)
Definition handleStartStop {F : Type} (app : App F) : App F :=
  let paused := negb (isPaused app) in
  mkApp (particles app) paused
    (setButtonText (pauseLabel paused) (startStopText app))
    (randomNumbers app).

(** [handleReset()]: pause, relabel, [initParticles()] on the random
    numbers not drawn yet (it draws three per particle), resume, relabel. *)
Definition handleReset {F : Type} `{JsNumber F} (cfg : Config F) (app : App F)
  : outcome (App F) :=
  let button := setButtonText "Resetting..."%string (startStopText app) in
  ps <- initParticles cfg (randomNumbers app) ;;
  Returned
    (mkApp ps false (setButtonText "Pause"%string button)
       (fun k => randomNumbers app (k + 3 * Z.to_nat (particleCount cfg))%nat)).

(** [main()] with three.js loaded: the particles are created, the button
    (when the page has one) is labelled for [isPaused = false], and
    [animate()] runs its first frame.  [button] is the text the element had
    in the page, if there is one. *)
Definition main {F : Type} `{JsNumber F} (cfg : Config F) (rand : nat -> F)
  (button : option String.string) : outcome (App F) :=
  ps <- initParticles cfg rand ;;
  animate cfg
    (mkApp ps false (setButtonText (pauseLabel false) button)
       (fun k => rand (k + 3 * Z.to_nat (particleCount cfg))%nat)).

(** What can happen after [main()]: an animation frame, a click on the
    start/stop button, a click on the reset button. *)
Inductive Event : Type :=
| AnimationFrame
| ClickStartStop
| ClickReset.

Definition dispatch {F : Type} `{JsNumber F} (cfg : Config F) (ev : Event)
  (app : App F) : outcome (App F) :=
  match ev with
  | AnimationFrame => animate cfg app
  | ClickStartStop => Returned (handleStartStop app)
  | ClickReset => handleReset cfg app
  end.

Fixpoint runEvents {F : Type} `{JsNumber F} (cfg : Config F) (evs : list Event)
  (app : App F) : outcome (App F) :=
  match evs with
  | [] => Returned app
  | ev :: evs' => app' <- dispatch cfg ev app ;; runEvents cfg evs' app'
  end.

(** Whether the page has the element. *)
Definition hasElement (button : option String.string) : bool :=
  match button with
  | Some _ => true
  | None => false
  end.

(** What holds of the application between events. *)
Definition appInvariant {F : Type} (cfg : Config F) (hasButton : bool) (app : App F)
  : Prop :=
  length (particles app) = Z.to_nat (particleCount cfg) /\
  (forall p, In p (particles app) -> mesh p = Some (position p)) /\
  startStopText app =
    (if hasButton then Some (pauseLabel (isPaused app)) else None).

(** ** The scene

    The children of the three.js scene, as far as [initParticles] looks at
    them: which object each is, and whether its [userData.isParticle] is
    set. *)
Record SceneObject : Type := mkSceneObject {
  objectId : nat;
  isParticle : bool
}.

(** [scene.remove(obj)]: three.js looks the object up with [indexOf] and
    splices it out; nothing happens when it is no child. *)
Fixpoint sceneRemove (obj : SceneObject) (children : list SceneObject)
  : list SceneObject :=
  match children with
  | [] => []
  | c :: children' =>
      if Nat.eqb (objectId c) (objectId obj) then children'
      else c :: sceneRemove obj children'
  end.

(** The first loop of [initParticles], from index [n - 1] down to 0. *)
Fixpoint clearFrom (n : nat) (children : list SceneObject)
  : outcome (list SceneObject) :=
  match n with
  | O => Returned children
  | S i =>
      match nth_error children i with
      | None => Thrown TypeError
      | Some obj =>
          clearFrom i (if isParticle obj then sceneRemove obj children else children)
      end
  end.

Definition clearParticleMeshes (children : list SceneObject)
  : outcome (list SceneObject) :=
  clearFrom (length children) children.

(** Two particles at rest at the same place, and a scene of two lights
    and two particle meshes. *)
Definition coincidentR : Store R :=
  [particleAt 1%R 2%R 3%R; particleAt 1%R 2%R 3%R].

Definition sceneOfFour : list SceneObject :=
  [mkSceneObject 0 false; mkSceneObject 1 false;
   mkSceneObject 2 true; mkSceneObject 3 true].

(** The application on doubles right after its start, with the scenario in
    the store. *)
Definition runningApp : App float :=
  mkApp scenario false (Some "Pause"%string) (fun _ => 0.5%float).

(** * Properties *)

Unset Implicit Arguments.

Arguments fastExp : simpl never.
Arguments peakFunction : simpl never.
Arguments repulsionFunction : simpl never.
Arguments pairDistance : simpl never.
Arguments pairDirection : simpl never.

(** ** Arrays and loops *)

Section Loops.

Context {A : Type}.

Lemma length_modify (i : nat) (f : A -> A) (l : list A) :
  length (modify i f l) = length l.
Proof.
  revert i; induction l as [|x l IH]; intros [|i]; simpl; auto.
Qed.

Lemma nth_error_modify_eq (i : nat) (f : A -> A) (l : list A) :
  nth_error (modify i f l) i = option_map f (nth_error l i).
Proof.
  revert i; induction l as [|x l IH]; intros [|i]; simpl; auto.
Qed.

Lemma nth_error_modify_ne (i k : nat) (f : A -> A) (l : list A) :
  i <> k -> nth_error (modify i f l) k = nth_error l k.
Proof.
  revert i k; induction l as [|x l IH]; intros [|i] [|k] Hik; simpl; auto;
    congruence.
Qed.

Lemma map_modify_same {B : Type} (g : A -> B) (i : nat) (f : A -> A) (l : list A) :
  (forall x, g (f x) = g x) -> map g (modify i f l) = map g l.
Proof.
  intros Hg; revert i; induction l as [|x l IH]; intros [|i]; simpl; auto.
  - now rewrite Hg.
  - now rewrite IH.
Qed.

Lemma map_modify_congr {B : Type} (g : A -> B) (i : nat) (f : A -> A) (l1 l2 : list A) :
  (forall x y, g x = g y -> g (f x) = g (f y)) ->
  map g l1 = map g l2 ->
  map g (modify i f l1) = map g (modify i f l2).
Proof.
  intros Hg; revert i l2; induction l1 as [|x l1 IH]; intros i [|y l2] E;
    simpl in E; try discriminate; auto.
  injection E as Exy E.
  destruct i as [|i]; simpl.
  - now rewrite (Hg _ _ Exy), E.
  - now rewrite Exy, (IH i l2 E).
Qed.

(** A [for ... of] loop touches the indices it has reached and no other. *)
Lemma nth_error_forOfFrom (body : A -> A) (n k m : nat) (ps : list A) :
  nth_error (forOfFrom body k n ps) m =
  if (k <=? m)%nat && (m <? k + n)%nat
  then option_map body (nth_error ps m)
  else nth_error ps m.
Proof.
  revert k ps; induction n as [|n IH]; intros k ps; simpl.
  - destruct (Nat.leb_spec k m), (Nat.ltb_spec m (k + 0)); simpl; auto; lia.
  - rewrite IH.
    destruct (Nat.eq_dec k m) as [->|Hkm].
    + rewrite nth_error_modify_eq.
      destruct (Nat.leb_spec (S m) m), (Nat.leb_spec m m),
        (Nat.ltb_spec m (m + S n)); simpl; auto; lia.
    + rewrite nth_error_modify_ne by assumption.
      destruct (Nat.leb_spec (S k) m), (Nat.leb_spec k m),
        (Nat.ltb_spec m (S k + n)), (Nat.ltb_spec m (k + S n)); simpl; auto; lia.
Qed.

(** Run to its end, the loop has applied its body to every element. *)
Lemma forOf_map (body : A -> A) (ps : list A) : forOf body ps = map body ps.
Proof.
  apply nth_error_ext; intros m. unfold forOf.
  rewrite nth_error_forOfFrom, nth_error_map; simpl.
  destruct (Nat.ltb_spec m (length ps)) as [Hm|Hm]; auto.
  apply nth_error_None in Hm. now rewrite Hm.
Qed.

Lemma map_forOfFrom_same {B : Type} (g : A -> B) (body : A -> A) (n k : nat)
  (ps : list A) :
  (forall x, g (body x) = g x) -> map g (forOfFrom body k n ps) = map g ps.
Proof.
  intros Hg; revert k ps; induction n as [|n IH]; intros k ps; simpl; auto.
  now rewrite IH, map_modify_same.
Qed.

Lemma length_forOfFrom (body : A -> A) (n k : nat) (ps : list A) :
  length (forOfFrom body k n ps) = length ps.
Proof.
  revert k ps; induction n as [|n IH]; intros k ps; simpl; auto.
  now rewrite IH, length_modify.
Qed.

(** The observed loop: one state per iteration, the state after [t + 1]
    iterations at index [t], the state the loop ends in at the end. *)
Lemma length_forOfStates (body : A -> A) (n k : nat) (ps : list A) :
  length (forOfStates body k n ps) = n.
Proof.
  revert k ps; induction n as [|n IH]; intros k ps; simpl; auto.
Qed.

Lemma nth_error_forOfStates (body : A -> A) (n k t : nat) (ps : list A) :
  (t < n)%nat ->
  nth_error (forOfStates body k n ps) t = Some (forOfFrom body k (S t) ps).
Proof.
  revert k t ps; induction n as [|n IH]; intros k t ps Ht; [lia|].
  destruct t as [|t]; [reflexivity|].
  simpl. rewrite IH by lia. reflexivity.
Qed.

Lemma last_cons {B : Type} (x d : B) (l : list B) : last (x :: l) d = last l x.
Proof.
  revert x d; induction l as [|y l IH]; intros x d; [reflexivity|].
  change (last (x :: y :: l) d) with (last (y :: l) d).
  now rewrite !IH.
Qed.

Lemma last_append {B : Type} (l1 l2 : list B) (d : B) :
  last (l1 ++ l2) d = last l2 (last l1 d).
Proof.
  revert d; induction l1 as [|x l1 IH]; intros d; [reflexivity|].
  change ((x :: l1) ++ l2) with (x :: (l1 ++ l2)).
  rewrite !last_cons. apply IH.
Qed.

Lemma last_forOfStates (body : A -> A) (n k : nat) (ps : list A) :
  last (forOfStates body k n ps) ps = forOfFrom body k n ps.
Proof.
  revert k ps; induction n as [|n IH]; intros k ps; [reflexivity|].
  change (forOfStates body k (S n) ps)
    with (modify k body ps :: forOfStates body (S k) n (modify k body ps)).
  rewrite last_cons. apply IH.
Qed.

End Loops.

Section Ranges.

Context {St : Type}.

(** A counted loop returns, and keeps [P], when each of its iterations
    does. *)
Lemma forRange_returns (P : St -> Prop) (body : nat -> St -> outcome St)
  (n start : nat) (s : St) :
  (forall k t, (start <= k < start + n)%nat -> P t ->
               exists t', body k t = Returned t' /\ P t') ->
  P s ->
  exists s', forRange body start n s = Returned s' /\ P s'.
Proof.
  revert start s; induction n as [|n IH]; intros start s Hbody Hs; simpl.
  - eauto.
  - destruct (Hbody start s) as (t & Et & Pt); [lia | assumption |].
    rewrite Et; simpl. apply IH; auto.
    intros k u Hk; apply Hbody; lia.
Qed.

(** What every iteration leaves unchanged, the loop leaves unchanged. *)
Lemma forRange_same {B : Type} (g : St -> B) (body : nat -> St -> outcome St)
  (n start : nat) (s s' : St) :
  (forall k t t', body k t = Returned t' -> g t' = g t) ->
  forRange body start n s = Returned s' -> g s' = g s.
Proof.
  intros Hbody; revert start s; induction n as [|n IH]; intros start s; simpl.
  - intros E; injection E as <-; auto.
  - destruct (body start s) as [t|e] eqn:Et; simpl; [|discriminate].
    intros E. rewrite (IH _ _ E). eapply Hbody; eauto.
Qed.

(** Two runs that agree under the view [g] at the start agree at the end,
    when each iteration respects [g]. *)
Lemma forRange_congr {B : Type} (g : St -> B) (body : nat -> St -> outcome St)
  (n start : nat) (s1 s2 : St) :
  (forall k t1 t2, g t1 = g t2 ->
                   outcome_map g (body k t1) = outcome_map g (body k t2)) ->
  g s1 = g s2 ->
  outcome_map g (forRange body start n s1) = outcome_map g (forRange body start n s2).
Proof.
  intros Hbody; revert start s1 s2; induction n as [|n IH]; intros start s1 s2 E;
    simpl.
  - unfold outcome_map; simpl. now rewrite E.
  - specialize (Hbody start s1 s2 E).
    destruct (body start s1) as [t1|e1], (body start s2) as [t2|e2];
      unfold outcome_map in Hbody; simpl in *; try discriminate.
    + apply IH. congruence.
    + unfold outcome_map; simpl. congruence.
Qed.

End Ranges.

(** ** The Field Computer, for every number type *)

Section FieldComputer.

Context {F : Type} `{JsNumber F}.

Lemma nth_error_view {B : Type} (g : Particle F -> B) (s1 s2 : Store F) (i : nat) :
  map g s1 = map g s2 ->
  option_map g (nth_error s1 i) = option_map g (nth_error s2 i).
Proof.
  intros E. rewrite <- !nth_error_map. now rewrite E.
Qed.

Lemma fieldView_inv (x y : Particle F) :
  fieldView x = fieldView y ->
  position x = position y /\ R_val x = R_val y /\ U_val x = U_val y /\
  R_grad x = R_grad y /\ U_grad x = U_grad y.
Proof.
  unfold fieldView, accumulators; intros E; injection E; auto.
Qed.

Ltac same_fields :=
  let x := fresh "x" in
  let y := fresh "y" in
  let E := fresh "E" in
  intros x y E; destruct (fieldView_inv x y E) as (? & ? & ? & ? & ?);
  unfold fieldView, accumulators; simpl; congruence.

Lemma addRepulsion_frame (cfg : Config F) (i j : nat) (r : F) (n : Vec3 F)
  (ps : Store F) :
  map frameView (addRepulsion cfg i j r n ps) = map frameView ps.
Proof.
  unfold addRepulsion.
  repeat (rewrite map_modify_same by (intros []; reflexivity)); reflexivity.
Qed.

Lemma addKernel_frame (cfg : Config F) (i j : nat) (r : F) (n : Vec3 F)
  (ps : Store F) :
  map frameView (addKernel cfg i j r n ps) = map frameView ps.
Proof.
  unfold addKernel.
  repeat (rewrite map_modify_same by (intros []; reflexivity)); reflexivity.
Qed.

Lemma addRepulsion_congr (cfg : Config F) (i j : nat) (r : F) (n : Vec3 F)
  (s1 s2 : Store F) :
  map fieldView s1 = map fieldView s2 ->
  map fieldView (addRepulsion cfg i j r n s1) =
  map fieldView (addRepulsion cfg i j r n s2).
Proof.
  intros E. unfold addRepulsion.
  repeat (apply map_modify_congr; [same_fields|]). exact E.
Qed.

Lemma addKernel_congr (cfg : Config F) (i j : nat) (r : F) (n : Vec3 F)
  (s1 s2 : Store F) :
  map fieldView s1 = map fieldView s2 ->
  map fieldView (addKernel cfg i j r n s1) =
  map fieldView (addKernel cfg i j r n s2).
Proof.
  intros E. unfold addKernel.
  repeat (apply map_modify_congr; [same_fields|]). exact E.
Qed.

Lemma pairInteraction_frame (cfg : Config F) (i j : nat) (ps ps' : Store F) :
  pairInteraction cfg i j ps = Returned ps' ->
  map frameView ps' = map frameView ps.
Proof.
  unfold pairInteraction.
  destruct (nth_error ps i) as [p1|]; [|discriminate].
  destruct (nth_error ps j) as [p2|]; [|discriminate].
  intros E; injection E as <-.
  rewrite addKernel_frame.
  destruct (nltb _ _); [apply addRepulsion_frame | reflexivity].
Qed.

Lemma pairInteraction_returns (cfg : Config F) (i j : nat) (ps : Store F) :
  (i < length ps)%nat -> (j < length ps)%nat ->
  exists ps', pairInteraction cfg i j ps = Returned ps' /\ length ps' = length ps.
Proof.
  intros Hi Hj. unfold pairInteraction.
  destruct (nth_error ps i) as [p1|] eqn:E1;
    [|apply nth_error_None in E1; lia].
  destruct (nth_error ps j) as [p2|] eqn:E2;
    [|apply nth_error_None in E2; lia].
  eexists; split; [reflexivity|].
  unfold addKernel, addRepulsion.
  destruct (nltb _ _); now rewrite !length_modify.
Qed.

Lemma pairInteraction_congr (cfg : Config F) (i j : nat) (s1 s2 : Store F) :
  map fieldView s1 = map fieldView s2 ->
  outcome_map (map fieldView) (pairInteraction cfg i j s1) =
  outcome_map (map fieldView) (pairInteraction cfg i j s2).
Proof.
  intros E. unfold pairInteraction.
  pose proof (nth_error_view fieldView s1 s2 i E) as Ei.
  pose proof (nth_error_view fieldView s1 s2 j E) as Ej.
  destruct (nth_error s1 i) as [a1|], (nth_error s2 i) as [a2|];
    simpl in Ei; try discriminate; [|reflexivity].
  destruct (nth_error s1 j) as [b1|], (nth_error s2 j) as [b2|];
    simpl in Ej; try discriminate; [|reflexivity].
  injection Ei as Ea _; injection Ej as Eb _. rewrite Ea, Eb.
  unfold outcome_map; simpl. f_equal.
  apply addKernel_congr.
  destruct (nltb _ _); [now apply addRepulsion_congr | exact E].
Qed.

End FieldComputer.

Section FieldComputerLoops.

Context {F : Type} `{JsNumber F}.

Lemma pairRow_returns (cfg : Config F) (count i : nat) (ps : Store F) :
  (count <= length ps)%nat ->
  exists ps', pairRow cfg count i ps = Returned ps' /\ length ps' = length ps.
Proof.
  intros Hc. unfold pairRow.
  destruct (forRange_returns (fun s => length s = length ps)
              (pairInteraction cfg i) (count - (i + 1)) (i + 1) ps)
    as (ps' & E & L); eauto.
  intros k t Hk Lt.
  destruct (pairInteraction_returns cfg i k t) as (t' & Et & Lt'); try lia.
  exists t'; split; [assumption | congruence].
Qed.

Lemma computeFields_returns (cfg : Config F) (ps : Store F) :
  (Z.to_nat (particleCount cfg) <= length ps)%nat ->
  exists out, computeFields cfg ps = Returned out /\ length out = length ps.
Proof.
  intros Hc. unfold computeFields.
  apply (forRange_returns (fun s => length s = length ps)).
  - intros k t _ Lt.
    destruct (pairRow_returns cfg (Z.to_nat (particleCount cfg)) k t)
      as (t' & Et & Lt'); [lia|].
    exists t'; split; [assumption | congruence].
  - apply length_forOfFrom.
Qed.

Lemma computeFields_frame (cfg : Config F) (ps out : Store F) :
  computeFields cfg ps = Returned out ->
  map frameView out = map frameView ps.
Proof.
  unfold computeFields; intros E.
  apply (forRange_same (map frameView)) in E.
  - rewrite E. apply map_forOfFrom_same. intros []; reflexivity.
  - intros k t t' Et. unfold pairRow in Et.
    apply (forRange_same (map frameView)) in Et; [assumption|].
    intros j u u'. apply pairInteraction_frame.
Qed.

Lemma resetFields_view (cfg : Config F) (s1 s2 : Store F) :
  map position s1 = map position s2 ->
  map fieldView (forOf (resetFields cfg) s1) =
  map fieldView (forOf (resetFields cfg) s2).
Proof.
  intros E. rewrite !forOf_map, !map_map.
  transitivity
    (map (fun pos => fieldView (resetFields cfg (mkParticle pos vzero num0 num0 vzero vzero None)))
         (map position s1)).
  - rewrite map_map. apply map_ext. intros []; reflexivity.
  - rewrite E, map_map. apply map_ext. intros []; reflexivity.
Qed.

Lemma computeFields_congr (cfg : Config F) (s1 s2 : Store F) :
  map position s1 = map position s2 ->
  outcome_map (map fieldView) (computeFields cfg s1) =
  outcome_map (map fieldView) (computeFields cfg s2).
Proof.
  intros E. unfold computeFields.
  apply forRange_congr; [|now apply resetFields_view].
  intros k t1 t2 Et. unfold pairRow.
  apply forRange_congr; [|assumption].
  intros j u1 u2. apply pairInteraction_congr.
Qed.

Lemma accumulators_of_view (m1 m2 : outcome (Store F)) :
  outcome_map (map fieldView) m1 = outcome_map (map fieldView) m2 ->
  outcome_map (map accumulators) m1 = outcome_map (map accumulators) m2.
Proof.
  destruct m1 as [a|e1], m2 as [b|e2]; unfold outcome_map; simpl; intros E;
    try discriminate; [|congruence].
  injection E as E. f_equal.
  assert (Hsnd : forall s : Store F, map accumulators s = map snd (map fieldView s))
    by (intros s; rewrite map_map; reflexivity).
  now rewrite !Hsnd, E.
Qed.

Lemma frameView_nth (s t : Store F) (k : nat) (p : Particle F) :
  map frameView s = map frameView t ->
  nth_error t k = Some p ->
  exists q, nth_error s k = Some q /\ position q = position p /\
            velocity q = velocity p /\ mesh q = mesh p.
Proof.
  intros E Hp. pose proof (nth_error_view frameView s t k E) as Ek.
  rewrite Hp in Ek. destruct (nth_error s k) as [q|]; simpl in Ek; [|discriminate].
  exists q. unfold frameView in Ek. injection Ek as -> -> ->. auto.
Qed.

(** C10.  [computeFields] changes nothing but the four accumulators:
    positions and velocities (and display handles) come out as they went
    in.  The accumulators it leaves are a function of the positions and
    the configuration alone: two stores with the same positions get the same
    accumulators, whatever their accumulators and velocities held before.
    The call returns whenever the array holds [particleCount] particles. *)
Theorem computeFields_rewrites_only_accumulators
  (cfg : Config F) (ps1 ps2 : Store F) :
  map position ps1 = map position ps2 ->
  outcome_map (map accumulators) (computeFields cfg ps1) =
  outcome_map (map accumulators) (computeFields cfg ps2) /\
  (forall out, computeFields cfg ps1 = Returned out ->
     map position out = map position ps1 /\
     map velocity out = map velocity ps1 /\
     map mesh out = map mesh ps1) /\
  ((Z.to_nat (particleCount cfg) <= length ps1)%nat ->
   exists out, computeFields cfg ps1 = Returned out).
Proof.
  intros E. split; [|split].
  - now apply accumulators_of_view, computeFields_congr.
  - intros out Eo. apply computeFields_frame in Eo.
    assert (Hp : forall s : Store F, map position s = map (fun v => fst (fst v)) (map frameView s))
      by (intros s; rewrite map_map; reflexivity).
    assert (Hv : forall s : Store F, map velocity s = map (fun v => snd (fst v)) (map frameView s))
      by (intros s; rewrite map_map; reflexivity).
    assert (Hm : forall s : Store F, map mesh s = map snd (map frameView s))
      by (intros s; rewrite map_map; reflexivity).
    now rewrite (Hp out), (Hv out), (Hm out), Eo, <- Hp, <- Hv, <- Hm.
  - intros Hc. destruct (computeFields_returns cfg ps1 Hc) as (out & Eo & _).
    now exists out.
Qed.

End FieldComputerLoops.

(** ** The Growth Integrator, for every number type *)

Section Integrator.

Context {F : Type} `{JsNumber F}.

(** The array the step ends in is the one the second loop leaves, run on
    the array the first loop leaves. *)
Lemma simulationStep_eq (cfg : Config F) (ps : Store F) :
  simulationStep cfg ps =
  (fs <- computeFields cfg ps ;;
   Returned (forOf (updatePosition cfg) (forOf (updateVelocity cfg) fs))).
Proof.
  unfold simulationStep, simulationStepStates.
  destruct (computeFields cfg ps) as [fs|e]; [|reflexivity].
  cbn [bind]. f_equal.
  cbv zeta. rewrite last_cons, last_append.
  rewrite !(last_forOfStates (updateVelocity cfg)).
  exact (last_forOfStates (updatePosition cfg) _ 0 _).
Qed.

Lemma simulationStep_unfold (cfg : Config F) (ps fs : Store F) :
  computeFields cfg ps = Returned fs ->
  simulationStep cfg ps =
  Returned (map (updatePosition cfg) (map (updateVelocity cfg) fs)).
Proof.
  intros E. rewrite simulationStep_eq, E; simpl. now rewrite !forOf_map.
Qed.

(** The states of a step, by the number [t] of loop iterations made: the
    first loop makes the iterations [1 .. n], the second the iterations
    [n + 1 .. 2 n], for the [n] particles of the array. *)
Lemma simulationStepStates_nth (cfg : Config F) (ps fs : Store F) :
  computeFields cfg ps = Returned fs ->
  exists states,
    simulationStepStates cfg ps = Returned states /\
    length states = (1 + length fs + length fs)%nat /\
    forall t, (t <= length fs + length fs)%nat ->
      nth_error states t =
      Some (if (t <=? length fs)%nat
            then forOfFrom (updateVelocity cfg) 0 t fs
            else forOfFrom (updatePosition cfg) 0 (t - length fs)
                   (forOf (updateVelocity cfg) fs)).
Proof.
  intros E. unfold simulationStepStates. rewrite E; cbn [bind]. cbv zeta.
  rewrite !(last_forOfStates (updateVelocity cfg)).
  fold (forOf (updateVelocity cfg) fs).
  eexists; split; [reflexivity|].
  assert (Lv : length (forOf (updateVelocity cfg) fs) = length fs)
    by apply length_forOfFrom.
  split.
  - cbn [length]. rewrite length_app, !length_forOfStates, Lv. lia.
  - intros t Ht. destruct t as [|t]; [reflexivity|].
    cbn [nth_error]. rewrite Lv.
    destruct (Nat.leb_spec (S t) (length fs)) as [Hle|Hgt].
    + rewrite nth_error_app1 by (rewrite length_forOfStates; lia).
      apply nth_error_forOfStates; lia.
    + rewrite nth_error_app2 by (rewrite length_forOfStates; lia).
      rewrite length_forOfStates, nth_error_forOfStates by lia.
      now replace (S (t - length fs)) with (S t - length fs)%nat by lia.
Qed.

Lemma simulationStep_returns (cfg : Config F) (ps : Store F) :
  (Z.to_nat (particleCount cfg) <= length ps)%nat ->
  exists out, simulationStep cfg ps = Returned out /\ length out = length ps.
Proof.
  intros Hc. destruct (computeFields_returns cfg ps Hc) as (fs & E & L).
  rewrite (simulationStep_unfold cfg ps fs E).
  eexists; split; [reflexivity|]. now rewrite !length_map.
Qed.

(** C1.  One call of [simulationStep] on a store that holds
    [particleCount] particles returns, and goes through [1 + 2 n] states of
    the array of [n] particles: the array as [computeFields] leaves it, one
    state per iteration of the velocity loop, one per iteration of the
    position loop, the last being the result.  Through the whole velocity
    loop every position is the one before the step, and from its end on
    every velocity has its final value: the particle at index [k] gets its
    velocity at iteration [k + 1] and its position at iteration
    [n + k + 1], so no position is written before all velocities are.  The
    values, written with the operations of the numbers alone, for each
    coordinate [c]: with [(G, dG)] what [peakFunction(U_val, mu_g, sigma_g)]
    (w = 1) returns on the fields just accumulated for the particle, the
    force is [c(U_grad) * dG - c(R_grad)], the new velocity is
    [(c(old velocity) + force * dt) * damping], and the new position is
    [c(old position) + new velocity * dt], put through the two tests of the
    boundary wrap. *)
Theorem simulationStep_velocities_then_positions (cfg : Config F) (ps : Store F) :
  (Z.to_nat (particleCount cfg) <= length ps)%nat ->
  exists fs out states,
    computeFields cfg ps = Returned fs /\
    simulationStep cfg ps = Returned out /\
    simulationStepStates cfg ps = Returned states /\
    let n := length ps in
    length states = (1 + n + n)%nat /\
    nth_error states 0 = Some fs /\
    nth_error states (n + n) = Some out /\
    (forall t s, (t <= n)%nat -> nth_error states t = Some s ->
       map position s = map position ps) /\
    (forall t s, (n <= t)%nat -> nth_error states t = Some s ->
       map velocity s = map velocity out) /\
    (forall k p0, nth_error ps k = Some p0 ->
       exists pf po,
         nth_error fs k = Some pf /\
         nth_error out k = Some po /\
         (forall t s, nth_error states t = Some s ->
            exists q,
              nth_error s k = Some q /\
              velocity q = (if (k <? t)%nat then velocity po else velocity p0) /\
              position q = (if (n + k <? t)%nat then position po else position p0)) /\
         let lp := leniaParams cfg in
         let u := ((U_val pf - mu_g lp) / sigma_g lp)%num in
         let e1 := (num1 + u * u / num32)%num in
         let e2 := (e1 * e1)%num in
         let e4 := (e2 * e2)%num in
         let e8 := (e4 * e4)%num in
         let e16 := (e8 * e8)%num in
         let e32 := (e16 * e16)%num in
         let G := (num1 / e32)%num in
         let dG := (- num2 * u * G / sigma_g lp)%num in
         let force := fun c : Vec3 F -> F =>
           (c (U_grad pf) * dG - c (R_grad pf))%num in
         let newVelocity := fun c : Vec3 F -> F =>
           ((c (velocity p0) + force c * dt lp) * damping cfg)%num in
         let halfWorld := (worldSize cfg / num2)%num in
         let wrap := fun a : F =>
           let a' := if (a <? - halfWorld)%num then (a + worldSize cfg)%num else a in
           if (a' >? halfWorld)%num then (a' - worldSize cfg)%num else a' in
         let newPosition := fun c : Vec3 F -> F =>
           wrap (c (position p0) + newVelocity c * dt lp)%num in
         let x := @vx F in
         let y := @vy F in
         let z := @vz F in
         peakFunction (U_val pf) (mu_g lp) (sigma_g lp) num1 = (G, dG) /\
         particleForce cfg pf = mkVec3 (force x) (force y) (force z) /\
         velocity po = mkVec3 (newVelocity x) (newVelocity y) (newVelocity z) /\
         position po = mkVec3 (newPosition x) (newPosition y) (newPosition z)).
Proof.
  intros Hc. destruct (computeFields_returns cfg ps Hc) as (fs & E & L).
  pose proof (computeFields_frame cfg ps fs E) as Hframe.
  destruct (simulationStepStates_nth cfg ps fs E) as (states & Es & Ls & Hs).
  rewrite L in Ls, Hs.
  assert (Hpos : map position fs = map position ps).
  { assert (Hp : forall s : Store F,
               map position s = map (fun v => fst (fst v)) (map frameView s))
      by (intros s; rewrite map_map; reflexivity).
    now rewrite (Hp fs), Hframe, <- Hp. }
  set (vs := forOf (updateVelocity cfg) fs) in *.
  assert (Hlate : forall t s, (t < 1 + length ps + length ps)%nat ->
            nth_error states t = Some s ->
            s = if (t <=? length ps)%nat
                then forOfFrom (updateVelocity cfg) 0 t fs
                else forOfFrom (updatePosition cfg) 0 (t - length ps) vs).
  { intros t s Ht Hts. rewrite Hs in Hts by lia. now injection Hts as <-. }
  assert (Hin : forall t s, nth_error states t = Some s ->
            (t < 1 + length ps + length ps)%nat).
  { intros t s Hts. rewrite <- Ls. apply nth_error_Some. congruence. }
  exists fs, (forOf (updatePosition cfg) vs), states.
  split; [assumption|].
  split; [now rewrite simulationStep_eq, E|].
  split; [assumption|].
  cbv zeta. split; [assumption|].
  split; [now rewrite Hs by lia|].
  split.
  { rewrite Hs by lia.
    destruct (Nat.leb_spec (length ps + length ps) (length ps)) as [H0|H0].
    - assert (Ln : length ps = 0%nat) by lia.
      destruct fs; [|simpl in L; lia]. rewrite Ln. reflexivity.
    - replace (length ps + length ps - length ps)%nat with (length vs)
        by (unfold vs, forOf; rewrite length_forOfFrom; lia).
      reflexivity. }
  split.
  { intros t s Ht Hts. rewrite (Hlate t s) by (try assumption; lia).
    destruct (Nat.leb_spec t (length ps)); [|lia].
    rewrite map_forOfFrom_same by (intros []; reflexivity). assumption. }
  split.
  { intros t s Ht Hts. pose proof (Hin t s Hts) as Hlt.
    rewrite (Hlate t s Hlt Hts).
    unfold forOf at 1.
    rewrite (map_forOfFrom_same velocity (updatePosition cfg))
      by (intros []; reflexivity).
    destruct (Nat.leb_spec t (length ps)).
    - replace t with (length fs) by lia. reflexivity.
    - apply map_forOfFrom_same. intros []; reflexivity. }
  intros k p0 Hk.
  destruct (frameView_nth fs ps k p0 Hframe Hk) as (pf & Hpf & Epos & Evel & _).
  assert (Hkn : (k < length ps)%nat) by (apply nth_error_Some; congruence).
  exists pf, (updatePosition cfg (updateVelocity cfg pf)).
  split; [assumption|].
  split; [unfold vs; now rewrite !forOf_map, !nth_error_map, Hpf|].
  split.
  { intros t s Hts. pose proof (Hin t s Hts) as Hlt.
    rewrite (Hlate t s Hlt Hts).
    destruct (Nat.leb_spec t (length ps)) as [Hle|Hgt].
    - rewrite nth_error_forOfFrom, Hpf. cbn [Nat.leb andb Nat.add option_map].
      destruct (Nat.ltb_spec (length ps + k) t); [lia|].
      destruct (Nat.ltb_spec k t); eexists; (split; [reflexivity|]); auto.
    - rewrite nth_error_forOfFrom. unfold vs.
      rewrite forOf_map, nth_error_map, Hpf.
      cbn [Nat.leb andb Nat.add option_map].
      destruct (Nat.ltb_spec k t); [|lia].
      destruct (Nat.ltb_spec k (t - length ps)),
        (Nat.ltb_spec (length ps + k) t); try lia;
        eexists; (split; [reflexivity|]); auto. }
  cbv zeta. rewrite <- Epos, <- Evel. repeat split; reflexivity.
Qed.

End Integrator.

(** ** Kernel Math *)

Section KernelShape.

Context {F : Type} `{JsNumber F}.

Lemma peakFunction_fst (r mu sigma w : F) :
  fst (peakFunction r mu sigma w) =
  (w / fastExp ((r - mu) / sigma * ((r - mu) / sigma)))%num.
Proof. reflexivity. Qed.

Lemma peakFunction_snd (r mu sigma w : F) :
  snd (peakFunction r mu sigma w) =
  ((- num2) * ((r - mu) / sigma) * fst (peakFunction r mu sigma w) / sigma)%num.
Proof. reflexivity. Qed.

End KernelShape.

(** *** Over the real numbers *)

Ltac real_ops :=
  cbv [nadd nsub nmul ndiv nneg nsqrt nmax nltb
       num0 num1 num2 num32 numHalf numEps RealNumber] in *.

Section KernelMath.

Open Scope R_scope.

Lemma Rltb_true (a b : R) : a < b -> Rltb a b = true.
Proof. unfold Rltb; intros Hab; destruct (Rlt_dec a b); [reflexivity | contradiction]. Qed.

Lemma Rltb_false (a b : R) : ~ a < b -> Rltb a b = false.
Proof. unfold Rltb; intros Hab; destruct (Rlt_dec a b); [contradiction | reflexivity]. Qed.

Lemma fastExp_pow (x : R) : fastExp x = (1 + x / 32) ^ 32.
Proof. unfold fastExp; real_ops. ring. Qed.

Lemma fastExp_ge_1 (x : R) : 0 <= x -> 1 <= fastExp x.
Proof.
  intros Hx. rewrite fastExp_pow. apply pow_R1_Rle. lra.
Qed.

Lemma square_le (a b : R) : 0 <= a <= b -> 0 <= a * a <= b * b.
Proof.
  intros [Ha Hab]; split.
  - apply Rmult_le_pos; assumption.
  - apply Rmult_le_compat; assumption.
Qed.

(** [(1 + x/32)^32] stays below the exponential it stands for. *)
Lemma fastExp_le_exp (x : R) : 0 <= x -> fastExp x <= exp x.
Proof.
  intros Hx.
  assert (Hdouble : forall y, exp (y + y) = exp y * exp y)
    by (intros y; apply exp_plus).
  replace (exp x) with
    (exp (x / 32 + x / 32 + (x / 32 + x / 32) + (x / 32 + x / 32 + (x / 32 + x / 32)) +
          (x / 32 + x / 32 + (x / 32 + x / 32) + (x / 32 + x / 32 + (x / 32 + x / 32))) +
          (x / 32 + x / 32 + (x / 32 + x / 32) + (x / 32 + x / 32 + (x / 32 + x / 32)) +
           (x / 32 + x / 32 + (x / 32 + x / 32) + (x / 32 + x / 32 + (x / 32 + x / 32))))))
    by (f_equal; field).
  rewrite !Hdouble.
  unfold fastExp; real_ops; cbv zeta.
  assert (H0 : 0 <= 1 + x / 32 <= exp (x / 32))
    by (split; [lra | apply exp_ineq1_le]).
  apply square_le in H0. apply square_le in H0. apply square_le in H0.
  apply square_le in H0. apply square_le in H0. apply H0.
Qed.

Lemma square_lt (a b : R) : 0 <= a < b -> 0 <= a * a < b * b.
Proof.
  intros [Ha Hab]; split.
  - apply Rmult_le_pos; assumption.
  - apply Rmult_le_0_lt_compat; assumption.
Qed.

(** The approximation is not the exponential: it is strictly below it for
    every positive argument. *)
Lemma fastExp_lt_exp (x : R) : 0 < x -> fastExp x < exp x.
Proof.
  intros Hx.
  assert (Hdouble : forall y, exp (y + y) = exp y * exp y)
    by (intros y; apply exp_plus).
  replace (exp x) with
    (exp (x / 32 + x / 32 + (x / 32 + x / 32) + (x / 32 + x / 32 + (x / 32 + x / 32)) +
          (x / 32 + x / 32 + (x / 32 + x / 32) + (x / 32 + x / 32 + (x / 32 + x / 32))) +
          (x / 32 + x / 32 + (x / 32 + x / 32) + (x / 32 + x / 32 + (x / 32 + x / 32)) +
           (x / 32 + x / 32 + (x / 32 + x / 32) + (x / 32 + x / 32 + (x / 32 + x / 32))))))
    by (f_equal; field).
  rewrite !Hdouble.
  unfold fastExp; real_ops; cbv zeta.
  assert (H0 : 0 <= 1 + x / 32 < exp (x / 32))
    by (split; [lra | apply exp_ineq1; lra]).
  apply square_lt in H0. apply square_lt in H0. apply square_lt in H0.
  apply square_lt in H0. apply square_lt in H0. apply H0.
Qed.

(** Hence the value returned off the peak is strictly above the exact
    [w * exp(-t^2)]. *)
Lemma peakFunction_value_not_exact (r mu sigma w : R) :
  0 < w -> (r - mu) / sigma <> 0 ->
  w * exp (- ((r - mu) / sigma * ((r - mu) / sigma)))
    < fst (peakFunction r mu sigma w).
Proof.
  intros Hw Ht. rewrite peakFunction_fst. real_ops.
  set (t := (r - mu) / sigma) in *.
  assert (Hpos : 0 < t * t) by exact (Rsqr_pos_lt t Ht).
  pose proof (fastExp_ge_1 (t * t) (Rlt_le _ _ Hpos)) as H1.
  pose proof (fastExp_lt_exp (t * t) Hpos) as H2.
  rewrite exp_Ropp. unfold Rdiv.
  apply Rmult_lt_compat_l; [assumption|].
  apply Rinv_lt_contravar; [|assumption].
  apply Rmult_lt_0_compat; [|apply exp_pos].
  eapply Rlt_le_trans; [apply Rlt_0_1 | exact H1].
Qed.

Lemma peakFunction_value_bounds (r mu sigma w : R) :
  0 <= w ->
  w * exp (- ((r - mu) / sigma * ((r - mu) / sigma)))
    <= fst (peakFunction r mu sigma w) <= w.
Proof.
  intros Hw. rewrite peakFunction_fst. real_ops.
  set (t := (r - mu) / sigma).
  assert (Ht : 0 <= t * t) by nra.
  pose proof (fastExp_ge_1 (t * t) Ht) as H1.
  pose proof (fastExp_le_exp (t * t) Ht) as H2.
  pose proof (exp_pos (t * t)) as H3.
  rewrite exp_Ropp. unfold Rdiv.
  assert (Hinv : / exp (t * t) <= / fastExp (t * t) <= 1).
  { split.
    - apply Rinv_le_contravar; lra.
    - rewrite <- Rinv_1. apply Rinv_le_contravar; lra. }
  split.
  - apply Rmult_le_compat_l; [assumption | apply Hinv].
  - rewrite <- (Rmult_1_r w) at 2.
    apply Rmult_le_compat_l; [assumption | apply Hinv].
Qed.

(** C5.  [peakFunction(r, mu, sigma, w)] returns [value] and [derivative]
    with [derivative = -2 * t * value / sigma] for [t = (r - mu) / sigma].
    The program evaluates the exponential by the approximation
    [exp(-t^2) ~ 1 / (1 + t^2/32)^32], so [value = w / (1 + t^2/32)^32];
    for [w >= 0] the value lies between the exact [w * exp(-t^2)] and
    [w]. *)
Theorem peakFunction_value_and_derivative (r mu sigma w : R) :
  sigma <> 0 ->
  let t := (r - mu) / sigma in
  let value := fst (peakFunction r mu sigma w) in
  let derivative := snd (peakFunction r mu sigma w) in
  value = w * (1 / (1 + t * t / 32) ^ 32) /\
  derivative = -2 * t * value / sigma /\
  (0 <= w -> w * exp (- (t * t)) <= value <= w).
Proof.
  intros Hs t value derivative. split; [|split].
  - unfold value. rewrite peakFunction_fst, fastExp_pow. real_ops.
    fold t. unfold Rdiv. now rewrite Rmult_1_l.
  - unfold derivative, value. rewrite peakFunction_snd. real_ops. reflexivity.
  - intros Hw. apply peakFunction_value_bounds; assumption.
Qed.

(** C6.  [repulsionFunction(r, c_rep)] returns [0.5 * c_rep * t^2] and
    [-c_rep * t] for [t = max(1 - r, 0)]; both are zero for every
    [r >= 1]. *)
Theorem repulsionFunction_value_and_derivative (r c : R) :
  let t := Rmax (1 - r) 0 in
  repulsionFunction r c = (1 / 2 * c * t * t, - c * t) /\
  (1 <= r -> repulsionFunction r c = (0, 0)).
Proof.
  intros t. split.
  - reflexivity.
  - intros Hr. unfold repulsionFunction; real_ops.
    rewrite Rmax_right by lra. f_equal; ring.
Qed.

Lemma vlength_nonneg (v : Vec3 R) : 0 <= vlength v.
Proof. unfold vlength; real_ops. apply sqrt_pos. Qed.

Lemma pairDistance_pos (a b : Vec3 R) : 0 < pairDistance a b.
Proof.
  unfold pairDistance. pose proof (vlength_nonneg (subVectors a b)) as Hl.
  real_ops. assert (0 < 1 / 10 ^ 20) by (apply Rdiv_lt_0_compat; [lra | apply pow_lt; lra]).
  lra.
Qed.

End KernelMath.

(** ** Pair contributions *)

Section PairUpdates.

Context {F : Type} `{JsNumber F}.

(** For every number type: the repulsion block of the pair [(i, j)] adds
    [n * dR] to [i]'s gradient, subtracts the same [n * dR] from [j]'s, adds
    the same [R] to both values, and touches no other particle. *)
Lemma addRepulsion_nth (cfg : Config F) (i j : nat) (r : F) (n : Vec3 F)
  (ps : Store F) (k : nat) :
  i <> j ->
  nth_error (addRepulsion cfg i j r n ps) k =
  if Nat.eq_dec k i then
    option_map
      (fun p => set_R_val
                  (R_val p + fst (repulsionFunction r (c_rep (leniaParams cfg))))%num
                  (set_R_grad
                     (addGrad n (snd (repulsionFunction r (c_rep (leniaParams cfg))))
                        (R_grad p)) p))
      (nth_error ps k)
  else if Nat.eq_dec k j then
    option_map
      (fun p => set_R_val
                  (R_val p + fst (repulsionFunction r (c_rep (leniaParams cfg))))%num
                  (set_R_grad
                     (subGrad n (snd (repulsionFunction r (c_rep (leniaParams cfg))))
                        (R_grad p)) p))
      (nth_error ps k)
  else nth_error ps k.
Proof.
  intros Hij. unfold addRepulsion.
  destruct (Nat.eq_dec k i) as [->|Hki]; [|destruct (Nat.eq_dec k j) as [->|Hkj]].
  - rewrite nth_error_modify_ne, nth_error_modify_eq, nth_error_modify_ne,
      nth_error_modify_eq by congruence.
    destruct (nth_error ps i); reflexivity.
  - rewrite nth_error_modify_eq, nth_error_modify_ne, nth_error_modify_eq,
      nth_error_modify_ne by congruence.
    destruct (nth_error ps j); reflexivity.
  - now rewrite !nth_error_modify_ne by congruence.
Qed.

(** Likewise for the kernel terms. *)
Lemma addKernel_nth (cfg : Config F) (i j : nat) (r : F) (n : Vec3 F)
  (ps : Store F) (k : nat) :
  i <> j ->
  let K := fst (peakFunction r (mu_k (leniaParams cfg)) (sigma_k (leniaParams cfg))
                  (w_k (leniaParams cfg))) in
  let dK := snd (peakFunction r (mu_k (leniaParams cfg)) (sigma_k (leniaParams cfg))
                   (w_k (leniaParams cfg))) in
  nth_error (addKernel cfg i j r n ps) k =
  if Nat.eq_dec k i then
    option_map
      (fun p => set_U_val (U_val p + K)%num (set_U_grad (addGrad n dK (U_grad p)) p))
      (nth_error ps k)
  else if Nat.eq_dec k j then
    option_map
      (fun p => set_U_val (U_val p + K)%num (set_U_grad (subGrad n dK (U_grad p)) p))
      (nth_error ps k)
  else nth_error ps k.
Proof.
  intros Hij K dK. unfold addKernel. fold K dK.
  destruct (Nat.eq_dec k i) as [->|Hki]; [|destruct (Nat.eq_dec k j) as [->|Hkj]].
  - rewrite nth_error_modify_ne, nth_error_modify_eq, nth_error_modify_ne,
      nth_error_modify_eq by congruence.
    destruct (nth_error ps i); reflexivity.
  - rewrite nth_error_modify_eq, nth_error_modify_ne, nth_error_modify_eq,
      nth_error_modify_ne by congruence.
    destruct (nth_error ps j); reflexivity.
  - now rewrite !nth_error_modify_ne by congruence.
Qed.

End PairUpdates.

Section PairContributions.

Open Scope R_scope.




End PairContributions.

(** ** Small stores, for every number type *)

Section SmallStores.

Context {F : Type} `{JsNumber F}.

(** With one particle there is no pair. *)
Lemma simulationStep_single (cfg : Config F) (p : Particle F) :
  particleCount cfg = 1%Z ->
  simulationStep cfg [p] =
  Returned [updatePosition cfg (updateVelocity cfg (resetFields cfg p))].
Proof.
  intros Hc. rewrite simulationStep_eq. unfold computeFields. rewrite Hc. reflexivity.
Qed.

(** With two particles there is the one pair [(0, 1)]. *)
Lemma computeFields_two (cfg : Config F) (a b : Particle F) :
  particleCount cfg = 2%Z ->
  computeFields cfg [a; b] =
  pairInteraction cfg 0 1 [resetFields cfg a; resetFields cfg b].
Proof.
  intros Hc. unfold computeFields. rewrite Hc.
  change (Z.to_nat 2) with 2%nat. unfold forOf; simpl forOfFrom.
  simpl forRange. reflexivity.
Qed.

End SmallStores.

(** ** The Boundary Wrapper over the real numbers *)

Section BoundaryWrapper.

Open Scope R_scope.

Variable cfg : Config R.

Lemma wrapAxis_inside (x : R) : inWorld cfg x -> wrapAxis cfg x = x.
Proof.
  unfold inWorld, wrapAxis; real_ops; intros [Hlo Hhi].
  rewrite (Rltb_false x) by lra. now rewrite Rltb_false by lra.
Qed.

Lemma wrapAxis_below (x : R) :
  0 <= worldSize cfg -> x < - (worldSize cfg / 2) ->
  wrapAxis cfg x = x + worldSize cfg.
Proof.
  unfold wrapAxis; real_ops; intros HW Hx.
  rewrite (Rltb_true x) by lra. now rewrite Rltb_false by lra.
Qed.

Lemma wrapAxis_above (x : R) :
  0 <= worldSize cfg -> worldSize cfg / 2 < x ->
  wrapAxis cfg x = x - worldSize cfg.
Proof.
  unfold wrapAxis; real_ops; intros HW Hx.
  rewrite (Rltb_false x) by lra. now rewrite Rltb_true by lra.
Qed.

Lemma wrapAxis_cases (x : R) :
  0 <= worldSize cfg ->
  (x < - (worldSize cfg / 2) /\ wrapAxis cfg x = x + worldSize cfg) \/
  (inWorld cfg x /\ wrapAxis cfg x = x) \/
  (worldSize cfg / 2 < x /\ wrapAxis cfg x = x - worldSize cfg).
Proof.
  intros HW.
  destruct (Rlt_dec x (- (worldSize cfg / 2))) as [Hlo|Hlo].
  - left. split; [assumption | now apply wrapAxis_below].
  - destruct (Rlt_dec (worldSize cfg / 2) x) as [Hhi|Hhi].
    + right; right. split; [assumption | now apply wrapAxis_above].
    + right; left. assert (Hin : inWorld cfg x) by (unfold inWorld; lra).
      split; [assumption | now apply wrapAxis_inside].
Qed.

(** The wrap commutes with the mirror image. *)
Lemma wrapAxis_opp (x : R) :
  0 <= worldSize cfg -> wrapAxis cfg (- x) = - wrapAxis cfg x.
Proof.
  intros HW.
  destruct (wrapAxis_cases x HW) as [[Hx ->]|[[Hx ->]|[Hx ->]]].
  - rewrite wrapAxis_above by lra. ring.
  - apply wrapAxis_inside. unfold inWorld in *. lra.
  - rewrite wrapAxis_below by lra. ring.
Qed.

(** One wrap brings back what is at most one world size outside. *)
Lemma wrapAxis_one_world (x : R) :
  0 <= worldSize cfg ->
  - (3 * worldSize cfg / 2) <= x <= 3 * worldSize cfg / 2 ->
  inWorld cfg (wrapAxis cfg x).
Proof.
  intros HW Hx.
  destruct (wrapAxis_cases x HW) as [[Hlo ->]|[[Hin ->]|[Hhi ->]]];
    unfold inWorld in *; lra.
Qed.

End BoundaryWrapper.

(** ** One step, particle by particle *)

Section StepByParticle.

Context {F : Type} `{JsNumber F}.

Lemma simulationStep_nth (cfg : Config F) (ps : Store F) :
  (Z.to_nat (particleCount cfg) <= length ps)%nat ->
  exists fs out,
    computeFields cfg ps = Returned fs /\
    simulationStep cfg ps = Returned out /\
    length out = length ps /\
    forall k p0, nth_error ps k = Some p0 ->
      exists pf,
        nth_error fs k = Some pf /\
        position pf = position p0 /\
        velocity pf = velocity p0 /\
        nth_error out k = Some (updatePosition cfg (updateVelocity cfg pf)).
Proof.
  intros Hc. destruct (computeFields_returns cfg ps Hc) as (fs & E & L).
  pose proof (computeFields_frame cfg ps fs E) as Hframe.
  exists fs, (map (updatePosition cfg) (map (updateVelocity cfg) fs)).
  split; [assumption|]. split; [now apply simulationStep_unfold|].
  split; [now rewrite !length_map|].
  intros k p0 Hk.
  destruct (frameView_nth fs ps k p0 Hframe Hk) as (pf & Hpf & Epos & Evel & _).
  exists pf. rewrite !nth_error_map, Hpf. auto.
Qed.

Lemma updatePosition_position (cfg : Config F) (p : Particle F) :
  position (updatePosition cfg p) =
  wrapVector cfg (addScaledVector (position p) (velocity p) (dt (leniaParams cfg))).
Proof. reflexivity. Qed.

Lemma updatePosition_velocity (cfg : Config F) (p : Particle F) :
  velocity (updatePosition cfg p) = velocity p.
Proof. reflexivity. Qed.

Lemma updateVelocity_position (cfg : Config F) (p : Particle F) :
  position (updateVelocity cfg p) = position p.
Proof. reflexivity. Qed.

Lemma updateVelocity_velocity (cfg : Config F) (p : Particle F) :
  velocity (updateVelocity cfg p) =
  multiplyScalar
    (addScaledVector (velocity p) (particleForce cfg p) (dt (leniaParams cfg)))
    (damping cfg).
Proof. reflexivity. Qed.

End StepByParticle.

(** ** The step with checked division

    Division of real numbers is total in [RealNumber]; JavaScript's is not
    (a zero divisor gives an infinity or NaN).  The two readings agree on a
    run exactly when no divisor of the run is zero, which the instance
    [CheckedReal] decides. *)

Ltac checked_ops :=
  cbv [nadd nsub nmul ndiv nneg nsqrt nmax nltb
       num0 num1 num2 num32 numHalf numEps CheckedReal RealNumber lift1 lift2].

Section CheckedDivision.

Open Scope R_scope.

Lemma checkedDiv_defined (x y : R) :
  y <> 0 -> checkedDiv (Some x) (Some y) = Some (x / y).
Proof.
  intros Hy. simpl. destruct (Req_EM_T y 0); [contradiction | reflexivity].
Qed.

Lemma fastExp_checked (x : R) : fastExp (Some x) = Some (fastExp x).
Proof.
  unfold fastExp. checked_ops. rewrite checkedDiv_defined by lra. reflexivity.
Qed.

Lemma peakFunction_checked (r mu sigma w : R) :
  sigma <> 0 ->
  peakFunction (Some r) (Some mu) (Some sigma) (Some w) =
  (Some (fst (peakFunction r mu sigma w)), Some (snd (peakFunction r mu sigma w))).
Proof.
  intros Hs.
  assert (Hf : fastExp ((r - mu) / sigma * ((r - mu) / sigma)) <> 0).
  { set (t := (r - mu) / sigma).
    pose proof (fastExp_ge_1 (t * t)) as Hge.
    assert (0 <= t * t) by nra. lra. }
  rewrite peakFunction_snd, peakFunction_fst.
  unfold peakFunction. checked_ops.
  rewrite (checkedDiv_defined (r - mu) sigma Hs).
  change (fastExp (Some ((r - mu) / sigma * ((r - mu) / sigma))))
    with (fastExp (F := option R) (Some ((r - mu) / sigma * ((r - mu) / sigma)))).
  rewrite fastExp_checked.
  rewrite (checkedDiv_defined w _ Hf).
  rewrite (checkedDiv_defined _ sigma Hs). reflexivity.
Qed.

Lemma repulsionFunction_checked (r c : R) :
  repulsionFunction (Some r) (Some c) =
  (Some (fst (repulsionFunction r c)), Some (snd (repulsionFunction r c))).
Proof. reflexivity. Qed.

Lemma pairDistance_checked (a b : Vec3 R) :
  pairDistance (mapVec3 Some a) (mapVec3 Some b) = Some (pairDistance a b).
Proof. reflexivity. Qed.

Lemma pairDirection_checked (a b : Vec3 R) :
  pairDirection (mapVec3 Some a) (mapVec3 Some b) =
  mapVec3 Some (pairDirection a b).
Proof.
  assert (Hr : pairDistance a b <> 0) by (pose proof (pairDistance_pos a b); lra).
  unfold pairDirection. rewrite pairDistance_checked. cbv zeta.
  unfold subVectors, mapVec3; cbn [vx vy vz]. checked_ops.
  now rewrite !checkedDiv_defined by assumption.
Qed.

Lemma modify_map {A B : Type} (g : A -> B) (f : A -> A) (f' : B -> B) (i : nat)
  (l : list A) :
  (forall x, f' (g x) = g (f x)) ->
  modify i f' (map g l) = map g (modify i f l).
Proof.
  intros Hf; revert i; induction l as [|x l IH]; intros [|i]; simpl; auto.
  - now rewrite Hf.
  - now rewrite IH.
Qed.

Lemma forRange_map {A B : Type} (g : A -> B) (body : nat -> A -> outcome A)
  (body' : nat -> B -> outcome B) (n start : nat) (s : A) :
  (forall k t, body' k (g t) = outcome_map g (body k t)) ->
  forRange body' start n (g s) = outcome_map g (forRange body start n s).
Proof.
  intros Hb; revert start s; induction n as [|n IH]; intros start s; simpl.
  - reflexivity.
  - rewrite Hb. destruct (body start s) as [t|e]; simpl; [apply IH | reflexivity].
Qed.

Variable cfg : Config R.
Hypothesis sigma_k_nonzero : sigma_k (leniaParams cfg) <> 0.
Hypothesis sigma_g_nonzero : sigma_g (leniaParams cfg) <> 0.

Let cfg' : Config (option R) := mapConfig Some cfg.
Let embed : Particle R -> Particle (option R) := mapParticle Some.

Lemma resetFields_checked (p : Particle R) :
  resetFields cfg' (embed p) = embed (resetFields cfg p).
Proof.
  unfold resetFields, cfg', embed, mapParticle, mapConfig. cbv zeta.
  cbn [leniaParams mapLeniaParams mu_k sigma_k w_k c_rep].
  change (@num0 (option R) CheckedReal) with (Some 0).
  rewrite peakFunction_checked by assumption.
  reflexivity.
Qed.

Lemma addRepulsion_checked (i j : nat) (r : R) (n : Vec3 R) (ps : Store R) :
  addRepulsion cfg' i j (Some r) (mapVec3 Some n) (map embed ps) =
  map embed (addRepulsion cfg i j r n ps).
Proof.
  unfold addRepulsion. cbv zeta.
  set (R := fst (repulsionFunction r (c_rep (leniaParams cfg)))).
  set (dR := snd (repulsionFunction r (c_rep (leniaParams cfg)))).
  rewrite (modify_map embed (fun p => set_R_grad (addGrad n dR (R_grad p)) p))
    by reflexivity.
  rewrite (modify_map embed (fun p => set_R_grad (subGrad n dR (R_grad p)) p))
    by reflexivity.
  rewrite (modify_map embed (fun p => set_R_val (R_val p + R) p)) by reflexivity.
  rewrite (modify_map embed (fun p => set_R_val (R_val p + R) p)) by reflexivity.
  reflexivity.
Qed.

Lemma addKernel_checked (i j : nat) (r : R) (n : Vec3 R) (ps : Store R) :
  addKernel cfg' i j (Some r) (mapVec3 Some n) (map embed ps) =
  map embed (addKernel cfg i j r n ps).
Proof.
  unfold addKernel. cbv zeta.
  unfold cfg', mapConfig. cbn [leniaParams mapLeniaParams mu_k sigma_k w_k].
  rewrite peakFunction_checked by assumption. cbn [fst snd].
  set (K := fst (peakFunction r (mu_k (leniaParams cfg)) (sigma_k (leniaParams cfg))
                   (w_k (leniaParams cfg)))).
  set (dK := snd (peakFunction r (mu_k (leniaParams cfg)) (sigma_k (leniaParams cfg))
                    (w_k (leniaParams cfg)))).
  rewrite (modify_map embed (fun p => set_U_grad (addGrad n dK (U_grad p)) p))
    by reflexivity.
  rewrite (modify_map embed (fun p => set_U_grad (subGrad n dK (U_grad p)) p))
    by reflexivity.
  rewrite (modify_map embed (fun p => set_U_val (U_val p + K) p)) by reflexivity.
  rewrite (modify_map embed (fun p => set_U_val (U_val p + K) p)) by reflexivity.
  reflexivity.
Qed.

Lemma pairInteraction_checked (i j : nat) (ps : Store R) :
  pairInteraction cfg' i j (map embed ps) =
  outcome_map (map embed) (pairInteraction cfg i j ps).
Proof.
  unfold pairInteraction. rewrite !nth_error_map.
  destruct (nth_error ps i) as [p1|]; [|reflexivity].
  destruct (nth_error ps j) as [p2|]; [|reflexivity].
  cbn [option_map]. cbv zeta.
  change (position (embed p1)) with (mapVec3 Some (position p1)).
  change (position (embed p2)) with (mapVec3 Some (position p2)).
  rewrite pairDistance_checked, pairDirection_checked.
  change (nltb (Some (pairDistance (position p1) (position p2))) num1)
    with (Rltb (pairDistance (position p1) (position p2)) 1).
  change (nltb (pairDistance (position p1) (position p2)) num1)
    with (Rltb (pairDistance (position p1) (position p2)) 1).
  unfold outcome_map; cbn [bind]. f_equal.
  destruct (Rltb _ _).
  - now rewrite addRepulsion_checked, addKernel_checked.
  - now rewrite addKernel_checked.
Qed.

Lemma computeFields_checked (ps : Store R) :
  computeFields cfg' (map embed ps) = outcome_map (map embed) (computeFields cfg ps).
Proof.
  unfold computeFields. cbv zeta.
  change (particleCount cfg') with (particleCount cfg).
  rewrite !forOf_map, map_map.
  rewrite (map_ext _ _ resetFields_checked), <- map_map.
  apply forRange_map. intros k t. unfold pairRow.
  apply forRange_map. intros k' t'. apply pairInteraction_checked.
Qed.

Lemma updateVelocity_checked (p : Particle R) :
  updateVelocity cfg' (embed p) = embed (updateVelocity cfg p).
Proof.
  unfold updateVelocity, particleForce. cbv zeta.
  unfold cfg', mapConfig. cbn [leniaParams mapLeniaParams mu_g sigma_g dt damping].
  change (U_val (embed p)) with (Some (U_val p)).
  change (@num1 (option R) CheckedReal) with (Some 1).
  rewrite peakFunction_checked by assumption. reflexivity.
Qed.

Lemma wrapAxis_checked (x : R) : wrapAxis cfg' (Some x) = Some (wrapAxis cfg x).
Proof.
  unfold wrapAxis, cfg', mapConfig. cbn [worldSize]. checked_ops.
  rewrite checkedDiv_defined by lra. cbv [checkedLtb lift1 lift2].
  destruct (Rltb x (- (worldSize cfg / 2))); cbv iota;
    destruct (Rltb (worldSize cfg / 2) _); reflexivity.
Qed.

Lemma updatePosition_checked (p : Particle R) :
  updatePosition cfg' (embed p) = embed (updatePosition cfg p).
Proof.
  assert (Hw : forall x v : R,
             wrapAxis cfg' (Some x + Some v * dt (leniaParams cfg'))%num =
             Some (wrapAxis cfg (x + v * dt (leniaParams cfg))))
    by (intros x v; apply wrapAxis_checked).
  destruct p as [[x y z] [u v w] rv uv rg ug m].
  unfold updatePosition, wrapPosition, wrapVector, advancePosition, addScaledVector,
    embed, mapParticle, mapVec3, set_position.
  cbn [position velocity R_val U_val R_grad U_grad mesh vx vy vz].
  now rewrite !Hw.
Qed.

(** Run with checked division, a step never meets a division by zero: its
    result is the result of the run over the reals, every number of it
    defined. *)
Lemma simulationStep_checked (ps : Store R) :
  simulationStep cfg' (map embed ps) =
  outcome_map (map embed) (simulationStep cfg ps).
Proof.
  rewrite !simulationStep_eq, computeFields_checked.
  destruct (computeFields cfg ps) as [fs|e]; [|reflexivity].
  unfold outcome_map; cbn [bind]. f_equal.
  rewrite !forOf_map, !map_map.
  apply map_ext. intros p.
  now rewrite updateVelocity_checked, updatePosition_checked.
Qed.

Lemma runSteps_checked (n : nat) (ps : Store R) :
  runSteps cfg' n (map embed ps) = outcome_map (map embed) (runSteps cfg n ps).
Proof.
  unfold runSteps. apply forRange_map. intros k t. apply simulationStep_checked.
Qed.

End CheckedDivision.


(** ** One particle *)

Section OneParticle.

Open Scope R_scope.

Lemma force_without_gradients (cfg : Config R) (p : Particle R) :
  R_grad p = vzero -> U_grad p = vzero -> particleForce cfg p = vzero.
Proof.
  intros HR HU. unfold particleForce. rewrite HR, HU.
  unfold subVectors, multiplyScalar, vzero; simpl; real_ops. f_equal; ring.
Qed.

Lemma wrapVector_inside (cfg : Config R) (v : Vec3 R) :
  vecInWorld cfg v -> wrapVector cfg v = v.
Proof.
  destruct v as [x y z]; unfold vecInWorld, wrapVector; simpl.
  intros (Hx & Hy & Hz). now rewrite !wrapAxis_inside.
Qed.

(** C7.  A store of one particle, at rest inside the world, with
    [sigma_k] and [sigma_g] different from zero: one step returns, without
    a division by zero (the run with checked division returns the same
    particle, every number defined), leaves [U_val] at the self-term
    [peakFunction(0, mu_k, sigma_k, w_k)[0]], leaves both gradients at zero,
    so that the force is the zero vector; the velocity is still zero and the
    position is the one before the step. *)
Theorem single_particle_stays_at_rest (cfg : Config R) (p : Particle R) :
  sigma_k (leniaParams cfg) <> 0 ->
  sigma_g (leniaParams cfg) <> 0 ->
  particleCount cfg = 1%Z ->
  velocity p = vzero ->
  vecInWorld cfg (position p) ->
  exists p',
    simulationStep cfg [p] = Returned [p'] /\
    simulationStep (mapConfig Some cfg) [mapParticle Some p] =
      Returned [mapParticle Some p'] /\
    U_val p' =
      fst (peakFunction 0 (mu_k (leniaParams cfg)) (sigma_k (leniaParams cfg))
             (w_k (leniaParams cfg))) /\
    R_grad p' = vzero /\
    U_grad p' = vzero /\
    particleForce cfg p' = vzero /\
    velocity p' = vzero /\
    position p' = position p.
Proof.
  intros Hk Hg Hc Hv Hin.
  pose proof (simulationStep_checked cfg Hk Hg [p]) as Ec. cbv zeta in Ec.
  rewrite (simulationStep_single cfg p Hc) in Ec |- *.
  eexists; split; [reflexivity|]. split; [exact Ec|].
  set (q := resetFields cfg p).
  assert (HR : R_grad q = vzero) by reflexivity.
  assert (HU : U_grad q = vzero) by reflexivity.
  assert (Hvel : velocity (updateVelocity cfg q) = vzero).
  { rewrite updateVelocity_velocity, (force_without_gradients cfg q HR HU).
    change (velocity q) with (velocity p). rewrite Hv.
    unfold multiplyScalar, addScaledVector, vzero; simpl; real_ops.
    f_equal; ring. }
  repeat split.
  - apply force_without_gradients; reflexivity.
  - rewrite updatePosition_velocity. exact Hvel.
  - rewrite updatePosition_position, Hvel, updateVelocity_position.
    change (position q) with (position p).
    replace (addScaledVector (position p) vzero (dt (leniaParams cfg)))
      with (position p).
    + now apply wrapVector_inside.
    + destruct (position p) as [x y z].
      unfold addScaledVector, vzero; simpl; real_ops. f_equal; ring.
Qed.

End OneParticle.

(** The program with a zero [sigma], run on doubles, one particle at rest
    at [(1, 2, 3)] inside the world.  With [sigma_g = 0] the derivative of
    the growth is NaN, and so are the velocity and the position after the
    step; with [sigma_k = 0] and [mu_k = 0] the self-term itself is NaN. *)
Lemma single_particle_zero_sigma_not_at_rest :
  (exists p,
     simulationStep (withSigmaG 0%float (withParticleCount 1 config))
       [particleAt 1%float 2%float 3%float] = Returned [p] /\
     is_nan (vx (velocity p)) = true /\
     is_nan (vy (velocity p)) = true /\
     is_nan (vz (velocity p)) = true /\
     is_nan (vx (position p)) = true /\
     is_nan (vy (position p)) = true /\
     is_nan (vz (position p)) = true) /\
  (exists p,
     simulationStep
       (withMuK 0%float (withSigmaK 0%float (withParticleCount 1 config)))
       [particleAt 1%float 2%float 3%float] = Returned [p] /\
     is_nan (U_val p) = true /\
     is_nan (vx (velocity p)) = true /\
     is_nan (vx (position p)) = true).
Proof.
  split; (eexists; split; [vm_compute; reflexivity|]); vm_compute; repeat split.
Qed.

(** ** The world after a step *)

Section WorldAfterStep.

Open Scope R_scope.

Lemma wrapVector_one_world (cfg : Config R) (pos d : Vec3 R) :
  0 <= worldSize cfg ->
  vecInWorld cfg pos ->
  withinOneWorld cfg d ->
  vecInWorld cfg
    (wrapVector cfg (mkVec3 (vx pos + vx d) (vy pos + vy d) (vz pos + vz d))).
Proof.
  intros HW (Hx & Hy & Hz) (Dx & Dy & Dz).
  unfold vecInWorld, wrapVector; simpl. unfold inWorld in Hx, Hy, Hz.
  repeat split; apply wrapAxis_one_world; try assumption; lra.
Qed.

(** C3, as the program has it.  For a positive world size: one wrap brings
    a coordinate that is at most one world size outside back into the
    closed interval [[-worldSize/2, worldSize/2]]; a coordinate at
    [worldSize/2 - eps] that moved outward by [d > eps] ends at
    [-worldSize/2 + (d - eps)]; and a step leaves every particle that was
    inside the closed cube, and moved by at most one world size along each
    axis, inside the closed cube. *)
Theorem wrap_keeps_closed_world (cfg : Config R) :
  0 < worldSize cfg ->
  (forall x,
     - (3 * worldSize cfg / 2) <= x <= 3 * worldSize cfg / 2 ->
     inWorld cfg (wrapAxis cfg x)) /\
  (forall eps d,
     0 <= eps -> eps < d ->
     wrapAxis cfg (worldSize cfg / 2 - eps + d) = - (worldSize cfg / 2) + (d - eps)) /\
  (forall ps,
     (Z.to_nat (particleCount cfg) <= length ps)%nat ->
     exists out,
       simulationStep cfg ps = Returned out /\
       forall k p0 po,
         nth_error ps k = Some p0 ->
         nth_error out k = Some po ->
         position po =
           wrapVector cfg
             (addScaledVector (position p0) (velocity po) (dt (leniaParams cfg))) /\
         (vecInWorld cfg (position p0) ->
          withinOneWorld cfg (multiplyScalar (velocity po) (dt (leniaParams cfg))) ->
          vecInWorld cfg (position po))).
Proof.
  intros HW. split; [|split].
  - intros x Hx. apply wrapAxis_one_world; [lra | assumption].
  - intros eps d He Hd. rewrite wrapAxis_above by lra. lra.
  - intros ps Hc.
    destruct (simulationStep_nth cfg ps Hc) as (fs & out & _ & Eout & _ & Hnth).
    exists out; split; [assumption|].
    intros k p0 po Hp0 Hpo.
    destruct (Hnth k p0 Hp0) as (pf & _ & Epos & _ & Hout).
    rewrite Hout in Hpo. injection Hpo as <-.
    rewrite updatePosition_position, updatePosition_velocity,
      updateVelocity_position, Epos.
    split; [reflexivity|].
    intros Hin Hd.
    apply (wrapVector_one_world cfg (position p0)
             (multiplyScalar (velocity (updateVelocity cfg pf)) (dt (leniaParams cfg))));
      [lra | assumption | assumption].
Qed.

(** The two ways the half-open interval of the specification is left, with
    the configuration of [main.js] and one particle.  A particle at the
    origin with velocity 1000 along x is moved to 98 and wrapped once, to
    73.  A particle at 11.52 with velocity 10 along x is moved to 12.5,
    which is [worldSize/2]: the test [x > halfWorld] does not fire. *)
Lemma step_leaves_half_open_world :
  (exists po,
     simulationStep (withParticleCount 1 configR) [particleMoving 0 1000]
       = Returned [po] /\
     vx (position po) = 73 /\
     ~ inWorldHalfOpen (withParticleCount 1 configR) (vx (position po))) /\
  (exists po,
     inWorldHalfOpen (withParticleCount 1 configR) (1152 / 100) /\
     simulationStep (withParticleCount 1 configR) [particleMoving (1152 / 100) 10]
       = Returned [po] /\
     vx (position po) = 25 / 2 /\
     ~ inWorldHalfOpen (withParticleCount 1 configR) (vx (position po))).
Proof.
  set (cfg := withParticleCount 1 configR).
  assert (HW : worldSize cfg = 25) by reflexivity.
  assert (Hstep : forall x v,
             exists po,
               simulationStep cfg [particleMoving x v] = Returned [po] /\
               vx (position po) = wrapAxis cfg (x + v * (98 / 100) * (1 / 10))).
  { intros x v. rewrite simulationStep_single by reflexivity.
    eexists; split; [reflexivity|].
    rewrite updatePosition_position, updateVelocity_velocity,
      updateVelocity_position, force_without_gradients by reflexivity.
    unfold wrapVector, addScaledVector, multiplyScalar; simpl. real_ops.
    f_equal. ring. }
  split.
  - destruct (Hstep 0 1000) as (po & E & Ex). exists po.
    assert (Ex' : vx (position po) = 73)
      by (rewrite Ex, wrapAxis_above; rewrite ?HW; lra).
    split; [assumption|]. split; [assumption|].
    rewrite Ex'. unfold inWorldHalfOpen. rewrite HW. lra.
  - destruct (Hstep (1152 / 100) 10) as (po & E & Ex). exists po.
    assert (Ex' : vx (position po) = 25 / 2)
      by (rewrite Ex, wrapAxis_inside; unfold inWorld; rewrite ?HW; lra).
    split; [unfold inWorldHalfOpen; rewrite HW; lra|].
    split; [assumption|]. split; [assumption|].
    rewrite Ex'. unfold inWorldHalfOpen. rewrite HW. lra.
Qed.

End WorldAfterStep.

(** ** Two particles *)

Section TwoParticles.

Open Scope R_scope.

Lemma vneg_involutive (v : Vec3 R) : vneg (vneg v) = v.
Proof. destruct v; unfold vneg; simpl; real_ops. f_equal; ring. Qed.

(** After the Field Computer the two particles of a store of two hold the
    same potential and opposite gradients. *)
Lemma computeFields_two_opposite (cfg : Config R) (a b : Particle R) :
  particleCount cfg = 2%Z ->
  exists fa fb,
    computeFields cfg [a; b] = Returned [fa; fb] /\
    position fa = position a /\ velocity fa = velocity a /\
    position fb = position b /\ velocity fb = velocity b /\
    U_val fa = U_val fb /\
    R_grad fa = vneg (R_grad fb) /\
    U_grad fa = vneg (U_grad fb).
Proof.
  intros Hc. rewrite (computeFields_two cfg a b Hc).
  unfold pairInteraction; simpl nth_error; cbv iota.
  destruct (nltb _ _); unfold addKernel, addRepulsion; simpl modify;
    (eexists; eexists; split; [reflexivity|]); simpl;
    repeat split;
    unfold vneg, addGrad, subGrad, vzero; simpl; real_ops; f_equal; ring.
Qed.

Lemma updateVelocity_opposite (cfg : Config R) (fa fb : Particle R) :
  U_val fa = U_val fb ->
  R_grad fa = vneg (R_grad fb) ->
  U_grad fa = vneg (U_grad fb) ->
  velocity fa = vneg (velocity fb) ->
  velocity (updateVelocity cfg fa) = vneg (velocity (updateVelocity cfg fb)).
Proof.
  intros EU ER EG EV. rewrite !updateVelocity_velocity.
  unfold particleForce. rewrite EU, ER, EG, EV.
  destruct (R_grad fb), (U_grad fb), (velocity fb).
  unfold vneg, multiplyScalar, addScaledVector, subVectors; simpl; real_ops.
  f_equal; ring.
Qed.

Lemma wrapVector_opposite (cfg : Config R) (v : Vec3 R) :
  0 <= worldSize cfg -> wrapVector cfg (vneg v) = vneg (wrapVector cfg v).
Proof.
  intros HW. destruct v as [x y z]. unfold wrapVector, vneg; simpl.
  change (@nneg R RealNumber) with Ropp.
  now rewrite !wrapAxis_opp.
Qed.

(** One step keeps a store of two mirrored. *)
Lemma simulationStep_mirrored (cfg : Config R) (a b : Particle R) :
  particleCount cfg = 2%Z ->
  0 <= worldSize cfg ->
  mirrored a b ->
  exists a' b',
    simulationStep cfg [a; b] = Returned [a'; b'] /\ mirrored a' b'.
Proof.
  intros Hc HW [Hpos Hvel].
  destruct (computeFields_two_opposite cfg a b Hc)
    as (fa & fb & E & Epa & Eva & Epb & Evb & EU & ER & EG).
  rewrite (simulationStep_unfold cfg [a; b] [fa; fb] E). simpl map.
  eexists; eexists; split; [reflexivity|].
  assert (Hv : velocity (updateVelocity cfg fa) = vneg (velocity (updateVelocity cfg fb)))
    by (apply updateVelocity_opposite; congruence).
  split.
  - rewrite !updatePosition_position, !updateVelocity_position, Hv, Epa, Epb, Hpos.
    rewrite <- wrapVector_opposite by assumption. f_equal.
    destruct (position b), (velocity (updateVelocity cfg fb)).
    unfold vneg, addScaledVector; simpl; real_ops. f_equal; ring.
  - now rewrite !updatePosition_velocity.
Qed.

(** C8.  A store of two particles whose positions and velocities are
    opposite, with [sigma_k] and [sigma_g] different from zero and a world
    size that is not negative: any number of steps returns, without a
    division by zero (the run with checked division returns the same two
    particles, every number defined), a store of two particles whose
    positions (and velocities) are again opposite. *)
Theorem two_particles_stay_mirrored
  (cfg : Config R) (n : nat) (a b : Particle R) :
  sigma_k (leniaParams cfg) <> 0 ->
  sigma_g (leniaParams cfg) <> 0 ->
  particleCount cfg = 2%Z ->
  0 <= worldSize cfg ->
  position a = vneg (position b) ->
  velocity a = vneg (velocity b) ->
  exists a' b',
    runSteps cfg n [a; b] = Returned [a'; b'] /\
    runSteps (mapConfig Some cfg) n [mapParticle Some a; mapParticle Some b] =
      Returned [mapParticle Some a'; mapParticle Some b'] /\
    position a' = vneg (position b') /\
    velocity a' = vneg (velocity b').
Proof.
  intros Hk Hg Hc HW Hpos Hvel.
  pose proof (runSteps_checked cfg Hk Hg n [a; b]) as Ec. cbv zeta in Ec.
  destruct (forRange_returns
              (fun s => exists x y, s = [x; y] /\ mirrored x y)
              (fun _ => simulationStep cfg) n 0%nat [a; b])
    as (s & E & x & y & -> & Hxy & Hxy').
  - intros k t _ (x & y & -> & Hxy).
    destruct (simulationStep_mirrored cfg x y Hc HW Hxy) as (x' & y' & E' & H').
    exists [x'; y']; split; [assumption|]. now exists x', y'.
  - exists a, b. split; [reflexivity|]. split; assumption.
  - assert (E' : runSteps cfg n [a; b] = Returned [x; y]) by exact E.
    rewrite E' in Ec.
    exists x, y. split; [exact E'|]. split; [exact Ec|]. split; assumption.
Qed.

End TwoParticles.

(** The program run on doubles.  With [sigma_k = 0] the two particles at
    [(-1, 0, 0)] and [(1, 0, 0)], at rest, have NaN positions after one
    step, which are not opposite ([NaN === -NaN] is false).  With a negative
    world size two particles at rest at the origin (opposite positions) are
    both moved to [(-2, -2, -2)] by the boundary wrap. *)
Lemma two_particles_not_mirrored :
  (exists a b,
     simulationStep (withSigmaK 0%float (withParticleCount 2 config)) scenario
       = Returned [a; b] /\
     is_nan (vx (position a)) = true /\
     is_nan (vx (position b)) = true /\
     PrimFloat.eqb (vx (position a)) (PrimFloat.opp (vx (position b))) = false) /\
  (exists a b,
     PrimFloat.eqb 0%float (PrimFloat.opp 0%float) = true /\
     simulationStep (withWorldSize (-2)%float (withParticleCount 2 config))
       [particleAt 0%float 0%float 0%float; particleAt 0%float 0%float 0%float]
       = Returned [a; b] /\
     position a = mkVec3 (-2)%float (-2)%float (-2)%float /\
     position b = mkVec3 (-2)%float (-2)%float (-2)%float /\
     PrimFloat.eqb (vx (position a)) (PrimFloat.opp (vx (position b))) = false).
Proof.
  split.
  - eexists; eexists; split; [vm_compute; reflexivity|]. vm_compute. repeat split.
  - eexists; eexists; split; [vm_compute; reflexivity|].
    split; [vm_compute; reflexivity|]. vm_compute. repeat split.
Qed.

(** ** Creating the store *)

Section Creation.

Context {F : Type} `{JsNumber F}.

(** The creation loop appends one particle per iteration, each from the
    next three random numbers. *)
Lemma initLoop_eq (cfg : Config F) (rand : nat -> F) (n k : nat) (acc : Store F) :
  initLoop cfg rand n k acc =
  acc ++ map (fun i => set_mesh (Some (position (newParticle cfg rand (k + 3 * i))))
                         (newParticle cfg rand (k + 3 * i)))
             (seq 0 n).
Proof.
  revert k acc; induction n as [|n IH]; intros k acc; simpl initLoop.
  - simpl. now rewrite app_nil_r.
  - rewrite IH, <- app_assoc. f_equal.
    change (seq 0 (S n)) with (0%nat :: seq 1 n).
    rewrite <- seq_shift, map_cons, map_map. cbn [app].
    f_equal.
    + now rewrite Nat.mul_0_r, Nat.add_0_r.
    + apply map_ext. intros i.
      now replace (k + 3 + 3 * i)%nat with (k + 3 * S i)%nat by lia.
Qed.

Lemma initLoop_nth (cfg : Config F) (rand : nat -> F) (n i : nat) :
  (i < n)%nat ->
  nth_error (initLoop cfg rand n 0 []) i =
  Some (set_mesh (Some (position (newParticle cfg rand (3 * i))))
          (newParticle cfg rand (3 * i))).
Proof.
  intros Hi. rewrite initLoop_eq. simpl app.
  rewrite nth_error_map, nth_error_seq.
  destruct (Nat.ltb_spec i n); [reflexivity | lia].
Qed.

Lemma initLoop_length (cfg : Config F) (rand : nat -> F) (n k : nat) (acc : Store F) :
  length (initLoop cfg rand n k acc) = (length acc + n)%nat.
Proof.
  revert k acc; induction n as [|n IH]; intros k acc; simpl; [lia|].
  rewrite IH, length_app. simpl. lia.
Qed.

(** C4, as the program has it.  [initParticles] checks nothing and has no
    failing path: for every configuration it returns a store of
    [max(particleCount, 0)] particles, hence of exactly [particleCount]
    particles when that is not negative; each has zero velocity, zero field
    accumulators, the position drawn for it, and a display handle at that
    position. *)
Theorem initParticles_always_returns (cfg : Config F) (rand : nat -> F) :
  exists ps,
    initParticles cfg rand = Returned ps /\
    length ps = Z.to_nat (particleCount cfg) /\
    ((0 <= particleCount cfg)%Z -> Z.of_nat (length ps) = particleCount cfg) /\
    forall k p, nth_error ps k = Some p ->
      position p =
        (mkVec3 ((rand (3 * k)%nat - numHalf) * initialSpread cfg)
                ((rand (3 * k + 1)%nat - numHalf) * initialSpread cfg)
                ((rand (3 * k + 2)%nat - numHalf) * initialSpread cfg))%num /\
      velocity p = vzero /\
      R_val p = num0 /\ U_val p = num0 /\
      R_grad p = vzero /\ U_grad p = vzero /\
      mesh p = Some (position p).
Proof.
  eexists; split; [reflexivity|].
  assert (L : length (initLoop cfg rand (Z.to_nat (particleCount cfg)) 0 [])
              = Z.to_nat (particleCount cfg))
    by (rewrite initLoop_length; reflexivity).
  split; [assumption|]. split; [intros Hc; rewrite L; lia|].
  intros k p Hk.
  assert (Hlt : (k < Z.to_nat (particleCount cfg))%nat)
    by (rewrite <- L; apply nth_error_Some; congruence).
  rewrite (initLoop_nth cfg rand _ k Hlt) in Hk. injection Hk as <-.
  repeat split.
Qed.

End Creation.

(** Configurations the specification rejects and [initParticles] accepts:
    a negative particle count gives the empty store, and [invalidConfig]
    gives its two particles. *)
Lemma initParticles_accepts_invalid_configurations :
  ((particleCount (withParticleCount (-1) configR) < 0)%Z /\
   initParticles (withParticleCount (-1) configR) randHalf = Returned [] /\
   ~ exists e, initParticles (withParticleCount (-1) configR) randHalf = Thrown e) /\
  ((worldSize invalidConfig <= 0)%R /\
   (initialSpread invalidConfig < 0)%R /\
   (sigma_k (leniaParams invalidConfig) <= 0)%R /\
   (sigma_g (leniaParams invalidConfig) <= 0)%R /\
   (exists a b, initParticles invalidConfig randHalf = Returned [a; b]) /\
   ~ exists e, initParticles invalidConfig randHalf = Thrown e).
Proof.
  split.
  - split; [reflexivity|]. split; [reflexivity|].
    intros [e He]; discriminate He.
  - simpl. repeat split; try lra.
    + eexists; eexists; reflexivity.
    + intros [e He]; discriminate He.
Qed.

(** ** No division by zero *)



(** ** The properties at concrete inputs *)

Lemma simulationStep_velocities_then_positions_witness :
  (Z.to_nat (particleCount (withParticleCount 2 config)) <= length scenario)%nat /\
  exists fs out states,
    computeFields (withParticleCount 2 config) scenario = Returned fs /\
    simulationStep (withParticleCount 2 config) scenario = Returned out /\
    simulationStepStates (withParticleCount 2 config) scenario = Returned states /\
    length states = 5%nat /\
    nth_error states 4 = Some out.
Proof.
  assert (Hc : (Z.to_nat (particleCount (withParticleCount 2 config))
                <= length scenario)%nat) by (simpl; lia).
  split; [exact Hc|].
  pose proof (simulationStep_velocities_then_positions
                (withParticleCount 2 config) scenario Hc) as Hstep.
  cbv zeta in Hstep.
  destruct Hstep as (fs & out & states & E1 & E2 & E3 & L & _ & Hlast & _).
  exists fs, out, states. auto.
Defined.


Lemma wrap_keeps_closed_world_witness :
  (0 < worldSize configR)%R /\ inWorld configR (wrapAxis configR 30%R).
Proof.
  assert (HW : (0 < worldSize configR)%R) by (simpl; lra).
  split; [exact HW|].
  destruct (wrap_keeps_closed_world configR HW) as (Hwrap & _).
  apply Hwrap. simpl; lra.
Defined.

Lemma peakFunction_value_and_derivative_witness :
  (1 <> 0)%R /\
  snd (peakFunction 0%R 4%R 1%R (22 / 1000)%R) =
  (-2 * ((0 - 4) / 1) * fst (peakFunction 0 4 1 (22 / 1000)) / 1)%R.
Proof.
  assert (H1 : (1 <> 0)%R) by lra.
  split; [exact H1|].
  exact (proj1 (proj2 (peakFunction_value_and_derivative 0%R 4%R 1%R (22 / 1000)%R H1))).
Defined.

Lemma single_particle_stays_at_rest_witness :
  exists p',
    simulationStep (withParticleCount 1 configR) [particleAt 1%R 2%R 3%R]
      = Returned [p'] /\
    velocity p' = vzero /\
    position p' = mkVec3 1%R 2%R 3%R.
Proof.
  assert (Hk : sigma_k (leniaParams (withParticleCount 1 configR)) <> 0%R)
    by (simpl; lra).
  assert (Hg : sigma_g (leniaParams (withParticleCount 1 configR)) <> 0%R)
    by (simpl; lra).
  assert (Hin : vecInWorld (withParticleCount 1 configR)
                  (position (particleAt 1%R 2%R 3%R)))
    by (unfold vecInWorld, inWorld; simpl; lra).
  destruct (single_particle_stays_at_rest (withParticleCount 1 configR)
              (particleAt 1%R 2%R 3%R) Hk Hg eq_refl eq_refl Hin)
    as (p' & E & _ & _ & _ & _ & _ & Hv & Hp).
  exists p'. auto.
Defined.

Lemma two_particles_stay_mirrored_witness :
  exists a' b',
    runSteps (withParticleCount 2 configR) 3 scenarioR = Returned [a'; b'] /\
    position a' = vneg (position b').
Proof.
  assert (HW : (0 <= worldSize (withParticleCount 2 configR))%R) by (simpl; lra).
  assert (Hpos : position (particleAt (-1)%R 0%R 0%R)
                 = vneg (position (particleAt 1%R 0%R 0%R)))
    by (unfold vneg; simpl; real_ops; f_equal; ring).
  assert (Hvel : velocity (particleAt (-1)%R 0%R 0%R)
                 = vneg (velocity (particleAt 1%R 0%R 0%R)))
    by (unfold vneg; simpl; unfold vzero; simpl; real_ops; f_equal; ring).
  assert (Hk : sigma_k (leniaParams (withParticleCount 2 configR)) <> 0%R)
    by (simpl; lra).
  assert (Hg : sigma_g (leniaParams (withParticleCount 2 configR)) <> 0%R)
    by (simpl; lra).
  destruct (two_particles_stay_mirrored (withParticleCount 2 configR) 3
              (particleAt (-1)%R 0%R 0%R) (particleAt 1%R 0%R 0%R)
              Hk Hg eq_refl HW Hpos Hvel)
    as (a' & b' & E & _ & Hp & _).
  exists a', b'. auto.
Defined.

Lemma computeFields_rewrites_only_accumulators_witness :
  map position scenario = map position scenarioUsed /\
  outcome_map (map accumulators) (computeFields (withParticleCount 2 config) scenario) =
  outcome_map (map accumulators) (computeFields (withParticleCount 2 config) scenarioUsed).
Proof.
  split; [reflexivity|].
  exact (proj1 (computeFields_rewrites_only_accumulators
                  (withParticleCount 2 config) scenario scenarioUsed eq_refl)).
Defined.

(** ** Runs on doubles

    The same definitions evaluated on binary64 numbers, as the program
    runs. *)

(** The scenario of the specification: after one step both particles hold
    the repulsion self-term 0.5 (the distance is 2, no repulsion) and
    their velocities are opposite. *)
Lemma doubles_scenario_step :
  exists a b,
    simulationStep (withParticleCount 2 config) scenario = Returned [a; b] /\
    R_val a = 0.5%float /\
    R_val b = 0.5%float /\
    U_val a = U_val b /\
    vx (velocity a) = PrimFloat.opp (vx (velocity b)) /\
    PrimFloat.ltb (vx (velocity a)) 0%float = true /\
    PrimFloat.eqb (vy (velocity a)) (PrimFloat.opp (vy (velocity b))) = true /\
    PrimFloat.eqb (vz (velocity a)) (PrimFloat.opp (vz (velocity b))) = true /\
    vx (position a) = PrimFloat.opp (vx (position b)).
Proof.
  eexists; eexists; split; [vm_compute; reflexivity|].
  vm_compute. repeat split.
Qed.

(** One particle at rest stays where it is. *)
Lemma doubles_single_particle_step :
  exists p,
    simulationStep (withParticleCount 1 config)
      [particleAt 1%float 2%float 3%float] = Returned [p] /\
    position p = mkVec3 1%float 2%float 3%float /\
    PrimFloat.eqb (vx (velocity p)) 0%float = true /\
    PrimFloat.eqb (vy (velocity p)) 0%float = true /\
    PrimFloat.eqb (vz (velocity p)) 0%float = true.
Proof.
  eexists; split; [vm_compute; reflexivity|].
  vm_compute. repeat split.
Qed.

(** One particle with velocity 1000 along x ends beyond [worldSize / 2]
    after the single wrap. *)
Lemma doubles_fast_particle_step :
  exists p,
    simulationStep (withParticleCount 1 config)
      [particleMoving 0%float 1000%float] = Returned [p] /\
    PrimFloat.ltb (PrimFloat.div (worldSize config) 2%float) (vx (position p)) = true.
Proof.
  eexists; split; [vm_compute; reflexivity|].
  vm_compute. reflexivity.
Qed.

(** The pair loops are bounded by [particleCount]: on a shorter array the
    step throws. *)
Lemma doubles_short_store_throws :
  simulationStep (withParticleCount 3 config) scenario = Thrown TypeError.
Proof. vm_compute. reflexivity. Qed.

(** * Further properties of the code *)

(** The operations of [RealNumber] read as operations of [R], with the
    functions of the program left folded. *)
Ltac real_num :=
  cbn [nadd nsub nmul ndiv nneg nsqrt nmax nltb
       num0 num1 num2 num32 numHalf numEps RealNumber] in *.

(** Case analysis on the test of the conditional in the goal. *)
Ltac case_test :=
  match goal with
  | |- context [if ?b then _ else _] => destruct b
  end.

(** ** Counted loops *)

Section RangeFacts.

Context {St : Type}.

(** What every iteration of the range keeps, the loop keeps. *)
Lemma forRange_invariant (P : St -> Prop) (body : nat -> St -> outcome St)
  (n start : nat) (s s' : St) :
  (forall k t t', (start <= k < start + n)%nat -> P t ->
                  body k t = Returned t' -> P t') ->
  P s ->
  forRange body start n s = Returned s' -> P s'.
Proof.
  revert start s; induction n as [|n IH]; intros start s Hbody Hs; simpl.
  - intros E; injection E as <-; assumption.
  - destruct (body start s) as [t|e] eqn:Et; simpl; [|discriminate].
    apply IH.
    + intros k u u' Hk; apply Hbody; lia.
    + apply (Hbody start s t); [lia | assumption | assumption].
Qed.

(** A loop throws when one of its iterations always does and the ones
    before it either return or throw the same error. *)
Lemma forRange_throws (P : St -> Prop) (e : JsError)
  (body : nat -> St -> outcome St) (n start : nat) (s : St) :
  (forall k t, (start <= k < start + n)%nat -> P t ->
               (exists t', body k t = Returned t' /\ P t') \/ body k t = Thrown e) ->
  (exists k, (start <= k < start + n)%nat /\ forall t, P t -> body k t = Thrown e) ->
  P s ->
  forRange body start n s = Thrown e.
Proof.
  revert start s; induction n as [|n IH]; intros start s Hbody (k & Hk & Hthrow) Hs;
    simpl; [lia|].
  destruct (Hbody start s) as [(t & Et & Pt)|Et]; [lia | assumption | |];
    rewrite Et; simpl; [|reflexivity].
  destruct (Nat.eq_dec k start) as [->|Hne].
  - rewrite (Hthrow s Hs) in Et. discriminate.
  - apply IH; [| |assumption].
    + intros j u Hj; apply Hbody; lia.
    + exists k; split; [lia | assumption].
Qed.

Lemma forRange_add (body : nat -> St -> outcome St) (n m start : nat) (s : St) :
  forRange body start (n + m) s =
  (s' <- forRange body start n s ;; forRange body (start + n) m s').
Proof.
  revert start s; induction n as [|n IH]; intros start s; simpl.
  - now rewrite Nat.add_0_r.
  - destruct (body start s) as [t|e]; simpl; [|reflexivity].
    rewrite IH. now replace (S start + n)%nat with (start + S n)%nat by lia.
Qed.

Lemma forRange_start (body : St -> outcome St) (n start start' : nat) (s : St) :
  forRange (fun _ => body) start n s = forRange (fun _ => body) start' n s.
Proof.
  revert start start' s; induction n as [|n IH]; intros start start' s; simpl.
  - reflexivity.
  - destruct (body s) as [t|e]; simpl; [apply IH | reflexivity].
Qed.

End RangeFacts.

(** ** When the step returns *)

Section StepReturns.

Context {F : Type} `{JsNumber F}.

Lemma pairInteraction_outcome (cfg : Config F) (i j : nat) (ps : Store F) :
  (exists ps', pairInteraction cfg i j ps = Returned ps' /\ length ps' = length ps) \/
  pairInteraction cfg i j ps = Thrown TypeError.
Proof.
  destruct (Nat.lt_ge_cases i (length ps)) as [Hi|Hi];
    [destruct (Nat.lt_ge_cases j (length ps)) as [Hj|Hj]|].
  - left. now apply pairInteraction_returns.
  - right. unfold pairInteraction. apply nth_error_None in Hj. rewrite Hj.
    destruct (nth_error ps i); reflexivity.
  - right. unfold pairInteraction. apply nth_error_None in Hi. now rewrite Hi.
Qed.

Lemma pairInteraction_past_end (cfg : Config F) (i j : nat) (ps : Store F) :
  (length ps <= j)%nat -> pairInteraction cfg i j ps = Thrown TypeError.
Proof.
  intros Hj. unfold pairInteraction. apply nth_error_None in Hj. rewrite Hj.
  destruct (nth_error ps i); reflexivity.
Qed.

Lemma computeFields_short_store (cfg : Config F) (ps : Store F) :
  (2 <= Z.to_nat (particleCount cfg))%nat ->
  (length ps < Z.to_nat (particleCount cfg))%nat ->
  computeFields cfg ps = Thrown TypeError.
Proof.
  intros H2 Hlen. unfold computeFields.
  destruct (Z.to_nat (particleCount cfg)) as [|count] eqn:Ec; [lia|].
  simpl forRange.
  assert (Hrow : pairRow cfg (S count) 0 (forOf (resetFields cfg) ps) = Thrown TypeError).
  { unfold pairRow.
    apply (forRange_throws (fun s => length s = length ps)).
    - intros k t _ Lt.
      destruct (pairInteraction_outcome cfg 0 k t) as [(t' & Et & Lt')|Et].
      + left. exists t'. split; [assumption | congruence].
      + now right.
    - exists count. split; [lia|].
      intros t Lt. apply pairInteraction_past_end. lia.
    - apply length_forOfFrom. }
  now rewrite Hrow.
Qed.

Lemma computeFields_few (cfg : Config F) (ps : Store F) :
  (Z.to_nat (particleCount cfg) <= 1)%nat ->
  computeFields cfg ps = Returned (forOf (resetFields cfg) ps).
Proof.
  intros Hc. unfold computeFields.
  destruct (Z.to_nat (particleCount cfg)) as [|[|count]]; [reflexivity | reflexivity | lia].
Qed.

(** X1.  [simulationStep] returns exactly when the array holds at least
    [particleCount] particles or [particleCount] is at most 1 (then there is
    no pair to read); in every other case it throws the [TypeError] of
    reading a field of [undefined]. *)
Theorem simulationStep_returns_iff (cfg : Config F) (ps : Store F) :
  ((exists out, simulationStep cfg ps = Returned out) <->
   (Z.to_nat (particleCount cfg) <= length ps)%nat \/
   (Z.to_nat (particleCount cfg) <= 1)%nat) /\
  ((exists out, simulationStep cfg ps = Returned out) \/
   simulationStep cfg ps = Thrown TypeError).
Proof.
  destruct (Nat.le_gt_cases (Z.to_nat (particleCount cfg)) (length ps)) as [Hle|Hgt].
  - destruct (simulationStep_returns cfg ps Hle) as (out & E & _).
    split; [|left; now exists out].
    split; [now left | intros _; now exists out].
  - destruct (Nat.le_gt_cases (Z.to_nat (particleCount cfg)) 1) as [H1|H1].
    + assert (E : exists out, simulationStep cfg ps = Returned out).
      { rewrite simulationStep_eq, (computeFields_few cfg ps H1). simpl.
        eexists; reflexivity. }
      split; [|now left]. split; [now right | intros _; exact E].
    + assert (E : simulationStep cfg ps = Thrown TypeError).
      { rewrite simulationStep_eq. now rewrite computeFields_short_store by lia. }
      split; [|now right].
      split; [intros [out Eo]; rewrite E in Eo; discriminate | lia].
Qed.

(** Particles are what the two views show of them. *)
Lemma particle_views (p q : Particle F) :
  fieldView p = fieldView q -> frameView p = frameView q -> p = q.
Proof.
  destruct p, q; unfold fieldView, frameView, accumulators; simpl.
  intros E1 E2. inversion E1; inversion E2; subst. reflexivity.
Qed.

Lemma store_views (s t : Store F) :
  map fieldView s = map fieldView t -> map frameView s = map frameView t -> s = t.
Proof.
  revert t; induction s as [|p s IH]; intros [|q t] E1 E2; simpl in *;
    try discriminate; [reflexivity|].
  assert (Ep : fieldView p = fieldView q) by congruence.
  assert (Eq : frameView p = frameView q) by congruence.
  assert (E1' : map fieldView s = map fieldView t) by congruence.
  assert (E2' : map frameView s = map frameView t) by congruence.
  now rewrite (particle_views p q Ep Eq), (IH t E1' E2').
Qed.

(** X2.  [computeFields] is idempotent: run again on the store it has just
    left, it leaves every particle as it is; a second call without a move
    in between accumulates nothing more. *)
Theorem computeFields_idempotent (cfg : Config F) (ps : Store F) :
  (out <- computeFields cfg ps ;; computeFields cfg out) = computeFields cfg ps.
Proof.
  destruct (computeFields cfg ps) as [out|e] eqn:E; simpl; [|reflexivity].
  pose proof (computeFields_frame cfg ps out E) as Hframe.
  assert (Hpos : map position out = map position ps).
  { assert (Hp : forall s : Store F,
               map position s = map (fun v => fst (fst v)) (map frameView s))
      by (intros s; rewrite map_map; reflexivity).
    now rewrite (Hp out), Hframe, <- Hp. }
  pose proof (computeFields_congr cfg out ps Hpos) as Hview.
  rewrite E in Hview. unfold outcome_map in Hview; simpl in Hview.
  destruct (computeFields cfg out) as [out2|e2] eqn:E2; simpl in Hview;
    [|discriminate].
  injection Hview as Hview. f_equal.
  apply store_views; [assumption|].
  now rewrite (computeFields_frame cfg out out2 E2).
Qed.

End StepReturns.

(** ** The peak and the repulsion as functions of the distance *)

Section KernelAnalysis.

Open Scope R_scope.

Lemma fastExp_0 : fastExp 0 = 1.
Proof. rewrite fastExp_pow. replace (1 + 0 / 32) with 1 by field. apply pow1. Qed.

Lemma fastExp_monotone (x y : R) : 0 <= x <= y -> fastExp x <= fastExp y.
Proof.
  intros [Hx Hxy]. rewrite !fastExp_pow. apply pow_incr. lra.
Qed.

Lemma fastExp_pos (x : R) : 0 <= x -> 0 < fastExp x.
Proof. intros Hx. pose proof (fastExp_ge_1 x Hx). lra. Qed.

(** X3.  [peakFunction] is a bump centred at [mu]: at [r = mu] it returns
    the value [w] and the derivative 0; value and derivative at [mu + d]
    and [mu - d] are equal and opposite; for [w >= 0] the value does not
    grow when [r] moves away from [mu], and the derivative points back to
    [mu] (not negative below [mu], not positive above, for [sigma > 0]). *)
Theorem peakFunction_bump (mu sigma w : R) :
  sigma <> 0 ->
  peakFunction mu mu sigma w = (w, 0) /\
  (forall d,
     fst (peakFunction (mu + d) mu sigma w) = fst (peakFunction (mu - d) mu sigma w) /\
     snd (peakFunction (mu + d) mu sigma w) = - snd (peakFunction (mu - d) mu sigma w)) /\
  (0 <= w ->
   forall r1 r2,
     (r1 - mu) * (r1 - mu) <= (r2 - mu) * (r2 - mu) ->
     fst (peakFunction r2 mu sigma w) <= fst (peakFunction r1 mu sigma w)) /\
  (0 <= w -> 0 < sigma ->
   forall r,
     (r <= mu -> 0 <= snd (peakFunction r mu sigma w)) /\
     (mu <= r -> snd (peakFunction r mu sigma w) <= 0)).
Proof.
  intros Hs. split; [|split; [|split]].
  - rewrite (surjective_pairing (peakFunction mu mu sigma w)),
      peakFunction_snd, peakFunction_fst. real_num.
    replace ((mu - mu) / sigma) with 0 by (field; assumption).
    replace (0 * 0) with 0 by ring.
    rewrite fastExp_0. f_equal; field; assumption.
  - intros d. rewrite !peakFunction_snd, !peakFunction_fst. real_num.
    replace ((mu - d - mu) / sigma) with (- ((mu + d - mu) / sigma))
      by (field; assumption).
    set (t := (mu + d - mu) / sigma).
    replace (- t * - t) with (t * t) by ring.
    split; [reflexivity | unfold Rdiv; ring].
  - intros Hw r1 r2 Hr. rewrite !peakFunction_fst. real_num.
    set (t1 := (r1 - mu) / sigma). set (t2 := (r2 - mu) / sigma).
    assert (Ht : 0 <= t1 * t1 <= t2 * t2).
    { split; [apply Rle_0_sqr|]. unfold t1, t2.
      replace ((r1 - mu) / sigma * ((r1 - mu) / sigma))
        with ((r1 - mu) * (r1 - mu) * (/ sigma * / sigma)) by (field; assumption).
      replace ((r2 - mu) / sigma * ((r2 - mu) / sigma))
        with ((r2 - mu) * (r2 - mu) * (/ sigma * / sigma)) by (field; assumption).
      apply Rmult_le_compat_r; [apply Rle_0_sqr | assumption]. }
    pose proof (fastExp_monotone _ _ Ht) as Hm.
    pose proof (fastExp_pos (t1 * t1) (proj1 Ht)) as Hp.
    unfold Rdiv. apply Rmult_le_compat_l; [assumption|].
    apply Rinv_le_contravar; assumption.
  - intros Hw Hpos r. rewrite peakFunction_snd, peakFunction_fst. real_num.
    set (t := (r - mu) / sigma).
    assert (Hv : 0 <= w / fastExp (t * t)).
    { apply Rmult_le_pos; [assumption|]. apply Rlt_le, Rinv_0_lt_compat, fastExp_pos.
      apply Rle_0_sqr. }
    assert (Hi : 0 < / sigma) by now apply Rinv_0_lt_compat.
    split; intros Hr.
    + assert (Ht : t <= 0).
      { unfold t, Rdiv. replace 0 with (0 * / sigma) by ring.
        apply Rmult_le_compat_r; lra. }
      unfold Rdiv at 1. apply Rmult_le_pos; [|lra].
      replace (- (2) * t * (w / fastExp (t * t)))
        with ((2 * - t) * (w / fastExp (t * t))) by ring.
      apply Rmult_le_pos; lra.
    + assert (Ht : 0 <= t).
      { unfold t, Rdiv. apply Rmult_le_pos; lra. }
      unfold Rdiv at 1.
      replace (- (2) * t * (w / fastExp (t * t)) * / sigma)
        with (- ((2 * t) * (w / fastExp (t * t)) * / sigma)) by ring.
      apply Ropp_le_cancel. rewrite Ropp_involutive, Ropp_0.
      apply Rmult_le_pos; [|lra]. apply Rmult_le_pos; lra.
Qed.

(** The distance enters the peak through [g r = 1 + t^2 / 32]. *)
Lemma derivable_pt_lim_peak_base (r mu sigma : R) :
  derivable_pt_lim
    (fun x => 1 + (x - mu) / sigma * ((x - mu) / sigma) / 32) r
    (0 + 2 * ((r - mu) / sigma) * ((1 - 0) / sigma) / 32).
Proof.
  assert (Hlin : derivable_pt_lim (fun x => (x - mu) / sigma) r ((1 - 0) / sigma)).
  { apply (derivable_pt_lim_div_scal (fun x => x - mu)).
    apply (derivable_pt_lim_minus id (fct_cte mu)).
    - apply derivable_pt_lim_id.
    - apply derivable_pt_lim_const. }
  pose proof (derivable_pt_lim_comp _ Rsqr r _ _ Hlin
                (derivable_pt_lim_Rsqr ((r - mu) / sigma))) as Hsq.
  apply (derivable_pt_lim_plus (fct_cte 1)
           (fun x => (x - mu) / sigma * ((x - mu) / sigma) / 32)).
  - apply derivable_pt_lim_const.
  - apply (derivable_pt_lim_div_scal
             (fun x => (x - mu) / sigma * ((x - mu) / sigma))).
    exact Hsq.
Qed.

(** X4.  The derivative [peakFunction] returns is not the slope of the
    value it returns: the value [w / (1 + t^2/32)^32] has, as a function of
    [r], the derivative [returned derivative / (1 + t^2/32)].  The two
    agree at the peak only ([t = 0]); elsewhere the returned derivative is
    larger in size by the factor [1 + t^2/32]. *)
Theorem peakFunction_derivative_of_value (r mu sigma w : R) :
  sigma <> 0 ->
  derivable_pt_lim (fun x => fst (peakFunction x mu sigma w)) r
    (snd (peakFunction r mu sigma w)
     / (1 + (r - mu) / sigma * ((r - mu) / sigma) / 32)).
Proof.
  intros Hs.
  set (g := fun x => 1 + (x - mu) / sigma * ((x - mu) / sigma) / 32).
  assert (Hg1 : forall x, 1 <= g x).
  { intros x. unfold g.
    pose proof (Rle_0_sqr ((x - mu) / sigma)) as Hsq. unfold Rsqr in Hsq. lra. }
  pose proof (derivable_pt_lim_peak_base r mu sigma) as Hg. fold g in Hg.
  pose proof (derivable_pt_lim_comp g (fun y => y ^ 32) r _ _ Hg
                (derivable_pt_lim_pow (g r) 32)) as Hpow.
  assert (Hne : (fun y => y ^ 32) (g r) <> 0).
  { apply pow_nonzero. pose proof (Hg1 r). lra. }
  pose proof (derivable_pt_lim_div (fct_cte w) (comp (fun y => y ^ 32) g) r _ _
                (derivable_pt_lim_const w r) Hpow Hne) as Hdiv.
  apply (derivable_pt_lim_ext (div_fct (fct_cte w) (comp (fun y => y ^ 32) g))).
  - intros z. rewrite peakFunction_fst, fastExp_pow. reflexivity.
  - match goal with
    | Hd : derivable_pt_lim _ r ?l |- derivable_pt_lim _ r ?l' =>
        replace l' with l; [exact Hd|]
    end.
    rewrite peakFunction_snd, peakFunction_fst, fastExp_pow. real_num.
    unfold comp, fct_cte, Rsqr. fold (g r).
    replace (INR 32) with 32 by (simpl; ring).
    change (Init.Nat.pred 32) with 31%nat.
    replace (g r ^ 32) with (g r ^ 31 * g r) by ring.
    assert (g r <> 0) by (pose proof (Hg1 r); lra).
    assert (g r ^ 31 <> 0) by now apply pow_nonzero.
    set (G := g r) in *. clearbody G. field. split; assumption.
Qed.

End KernelAnalysis.

Section RepulsionAnalysis.

Open Scope R_scope.

Lemma repulsionFunction_fst (r c : R) :
  fst (repulsionFunction r c) = 1 / 2 * c * Rmax (1 - r) 0 * Rmax (1 - r) 0.
Proof. reflexivity. Qed.

Lemma repulsionFunction_snd (r c : R) :
  snd (repulsionFunction r c) = - c * Rmax (1 - r) 0.
Proof. reflexivity. Qed.

(** X5.  The range of [repulsionFunction] for a repulsion strength that is
    not negative: the value is never negative and the derivative never
    positive; at distance 0 they are [c_rep / 2] and [-c_rep], and for every
    distance [r >= 0] the value is at most [c_rep / 2] and the derivative at
    least [-c_rep]; the value does not grow with the distance. *)
Theorem repulsionFunction_range (c : R) :
  0 <= c ->
  repulsionFunction 0 c = (c / 2, - c) /\
  (forall r,
     0 <= fst (repulsionFunction r c) /\ snd (repulsionFunction r c) <= 0) /\
  (forall r,
     0 <= r ->
     fst (repulsionFunction r c) <= c / 2 /\ - c <= snd (repulsionFunction r c)) /\
  (forall r1 r2,
     r1 <= r2 -> fst (repulsionFunction r2 c) <= fst (repulsionFunction r1 c)).
Proof.
  intros Hc. split; [|split; [|split]].
  - rewrite (surjective_pairing (repulsionFunction 0 c)),
      repulsionFunction_fst, repulsionFunction_snd.
    rewrite Rmax_left by lra. f_equal; field.
  - intros r. rewrite repulsionFunction_fst, repulsionFunction_snd.
    pose proof (Rmax_r (1 - r) 0) as Hm.
    set (m := Rmax (1 - r) 0) in *.
    assert (Hcm : 0 <= c * m) by (apply Rmult_le_pos; lra).
    assert (Hcmm : 0 <= c * m * m) by (apply Rmult_le_pos; lra).
    split; lra.
  - intros r Hr. rewrite repulsionFunction_fst, repulsionFunction_snd.
    assert (Hm : 0 <= Rmax (1 - r) 0 <= 1)
      by (split; [apply Rmax_r | apply Rmax_lub; lra]).
    set (m := Rmax (1 - r) 0) in *.
    assert (Hcm : 0 <= c * m <= c * 1)
      by (split; [apply Rmult_le_pos | apply Rmult_le_compat_l]; lra).
    assert (Hcmm : c * m * m <= c * m * 1)
      by (apply Rmult_le_compat_l; lra).
    split; lra.
  - intros r1 r2 Hr. rewrite !repulsionFunction_fst.
    assert (Hm : 0 <= Rmax (1 - r2) 0 <= Rmax (1 - r1) 0).
    { split; [apply Rmax_r|]. apply Rmax_lub.
      - eapply Rle_trans; [|apply Rmax_l]. lra.
      - apply Rmax_r. }
    set (m1 := Rmax (1 - r1) 0) in *. set (m2 := Rmax (1 - r2) 0) in *.
    assert (Hsq : m2 * m2 <= m1 * m1) by (apply Rmult_le_compat; lra).
    replace (1 / 2 * c * m2 * m2) with (1 / 2 * c * (m2 * m2)) by ring.
    replace (1 / 2 * c * m1 * m1) with (1 / 2 * c * (m1 * m1)) by ring.
    apply Rmult_le_compat_l; [lra | assumption].
Qed.

Lemma derivable_pt_lim_half_square (r c : R) :
  derivable_pt_lim (fun x => 1 / 2 * c * (1 - x) * (1 - x)) r (- c * (1 - r)).
Proof.
  assert (Hlin : derivable_pt_lim (fun x => 1 - x) r (0 - 1)).
  { apply (derivable_pt_lim_minus (fct_cte 1) id).
    - apply derivable_pt_lim_const.
    - apply derivable_pt_lim_id. }
  pose proof (derivable_pt_lim_comp _ Rsqr r _ _ Hlin (derivable_pt_lim_Rsqr (1 - r)))
    as Hsq.
  pose proof (derivable_pt_lim_scal _ (1 / 2 * c) r _ Hsq) as Hsc.
  replace (- c * (1 - r)) with (1 / 2 * c * (2 * (1 - r) * (0 - 1))) by field.
  apply (derivable_pt_lim_ext
           (mult_real_fct (1 / 2 * c) (comp Rsqr (fun x => 1 - x)))); [|exact Hsc].
  intros z. unfold mult_real_fct, comp, Rsqr. ring.
Qed.

(** X6.  The derivative [repulsionFunction] returns is the slope of the
    value it returns, at every distance: also at [r = 1], where the two
    branches of [max(1 - r, 0)] meet with slope 0. *)
Theorem repulsionFunction_derivative_of_value (r c : R) :
  derivable_pt_lim (fun x => fst (repulsionFunction x c)) r
    (snd (repulsionFunction r c)).
Proof.
  rewrite repulsionFunction_snd.
  destruct (Rtotal_order r 1) as [Hr|[Hr|Hr]].
  - rewrite Rmax_left by lra.
    apply (derivable_pt_lim_locally_ext
             (fun x => 1 / 2 * c * (1 - x) * (1 - x)) _ r (r - 1) 1).
    + lra.
    + intros z Hz. rewrite repulsionFunction_fst, Rmax_left by lra. reflexivity.
    + apply derivable_pt_lim_half_square.
  - subst r. replace (1 - 1) with 0 by ring. rewrite Rmax_left by lra.
    replace (- c * 0) with 0 by ring.
    intros eps Heps.
    assert (Hd : 0 < eps / (Rabs c + 1))
      by (apply Rdiv_lt_0_compat; [assumption | pose proof (Rabs_pos c); lra]).
    exists (mkposreal _ Hd). cbn [pos]. intros h Hh Hlt.
    rewrite !repulsionFunction_fst.
    replace (1 - 1) with 0 by ring. rewrite (Rmax_left 0 0) by lra.
    replace (1 - (1 + h)) with (- h) by ring.
    assert (Hbound : Rabs (1 / 2 * c * Rmax (- h) 0 * Rmax (- h) 0) <= Rabs c * Rabs h * Rabs h).
    { assert (Hm : 0 <= Rmax (- h) 0 <= Rabs h).
      { split; [apply Rmax_r|]. apply Rmax_lub; [|apply Rabs_pos].
        rewrite <- Rabs_Ropp. apply Rle_abs. }
      rewrite !Rabs_mult. rewrite (Rabs_pos_eq (Rmax (- h) 0)) by apply Hm.
      rewrite (Rabs_pos_eq (1 / 2)) by lra.
      pose proof (Rabs_pos c). pose proof (Rabs_pos h).
      set (m := Rmax (- h) 0) in *. set (a := Rabs c) in *. set (b := Rabs h) in *.
      assert (a * m <= a * b) by (apply Rmult_le_compat_l; lra).
      assert (a * m * m <= a * b * b).
      { apply Rle_trans with (a * b * m).
        - apply Rmult_le_compat_r; lra.
        - apply Rmult_le_compat_l; [apply Rmult_le_pos; lra | lra]. }
      assert (0 <= a * m * m) by (apply Rmult_le_pos; [apply Rmult_le_pos|]; lra).
      lra. }
    replace ((1 / 2 * c * Rmax (- h) 0 * Rmax (- h) 0 - 1 / 2 * c * 0 * 0) / h - 0)
      with (1 / 2 * c * Rmax (- h) 0 * Rmax (- h) 0 * / h) by (field; assumption).
    rewrite Rabs_mult, Rabs_inv.
    assert (Hhpos : 0 < Rabs h) by now apply Rabs_pos_lt.
    apply Rle_lt_trans with (Rabs c * Rabs h * Rabs h * / Rabs h).
    + apply Rmult_le_compat_r; [apply Rlt_le, Rinv_0_lt_compat; assumption | assumption].
    + replace (Rabs c * Rabs h * Rabs h * / Rabs h) with (Rabs c * Rabs h)
        by (field; lra).
      pose proof (Rabs_pos c) as Hc.
      apply Rle_lt_trans with ((Rabs c + 1) * Rabs h); [nra|].
      replace eps with ((Rabs c + 1) * (eps / (Rabs c + 1))) by (field; lra).
      apply Rmult_lt_compat_l; lra.
  - rewrite Rmax_right by lra. replace (- c * 0) with 0 by ring.
    apply (derivable_pt_lim_locally_ext (fct_cte 0) _ r 1 (r + 1)).
    + lra.
    + intros z Hz. rewrite repulsionFunction_fst, Rmax_right by lra.
      unfold fct_cte. ring.
    + apply derivable_pt_lim_const.
Qed.

End RepulsionAnalysis.

(** ** What the Field Computer conserves *)

Section FieldSums.

Open Scope R_scope.

Lemma vadd_zero_l (v : Vec3 R) : vadd vzero v = v.
Proof. destruct v; unfold vadd, vzero; simpl; real_num. f_equal; ring. Qed.

Lemma sumVectors_modify {A : Type} (g : A -> Vec3 R) (f : A -> A) (i : nat)
  (l : list A) (x : A) :
  nth_error l i = Some x ->
  sumVectors (map g (modify i f l)) =
  vadd (sumVectors (map g l)) (subVectors (g (f x)) (g x)).
Proof.
  revert i; induction l as [|y l IH]; intros [|i] Hx; simpl in Hx; try discriminate.
  - injection Hx as ->. simpl.
    unfold vadd, subVectors; simpl; real_num. f_equal; ring.
  - simpl. rewrite (IH i Hx).
    unfold vadd, subVectors; simpl; real_num. f_equal; ring.
Qed.

Lemma sumVectors_zero {A : Type} (g : A -> Vec3 R) (l : list A) :
  (forall x, g x = vzero) -> sumVectors (map g l) = vzero.
Proof.
  intros Hg; induction l as [|x l IH]; simpl; [reflexivity|].
  now rewrite Hg, IH, vadd_zero_l.
Qed.

Lemma nth_error_Some_lt {A : Type} (l : list A) (i : nat) :
  (i < length l)%nat -> exists x, nth_error l i = Some x.
Proof.
  intros Hi. destruct (nth_error l i) as [x|] eqn:E; [now exists x|].
  apply nth_error_None in E. lia.
Qed.

(** Adding [n * d] at [i] and subtracting it at [j] leaves the sum. *)
Lemma sumVectors_add_sub (g : Particle R -> Vec3 R)
  (set : Vec3 R -> Particle R -> Particle R) (n : Vec3 R) (d : R) (i j : nat)
  (ps : Store R) :
  (forall v p, g (set v p) = v) ->
  i <> j -> (i < length ps)%nat -> (j < length ps)%nat ->
  sumVectors
    (map g (modify j (fun p => set (subGrad n d (g p)) p)
              (modify i (fun p => set (addGrad n d (g p)) p) ps))) =
  sumVectors (map g ps).
Proof.
  intros Hset Hij Hi Hj.
  destruct (nth_error_Some_lt ps i Hi) as (x & Ex).
  destruct (nth_error_Some_lt ps j Hj) as (y & Ey).
  rewrite (sumVectors_modify g _ j _ y)
    by (rewrite nth_error_modify_ne by assumption; exact Ey).
  rewrite (sumVectors_modify g _ i _ x Ex), !Hset.
  destruct (sumVectors (map g ps)) as [sx sy sz], (g x) as [a b c], (g y) as [a' b' c'].
  unfold vadd, subVectors, addGrad, subGrad; simpl; real_num. f_equal; ring.
Qed.

Lemma addRepulsion_balanced (cfg : Config R) (i j : nat) (r : R) (n : Vec3 R)
  (ps0 s : Store R) :
  i <> j -> (i < length s)%nat -> (j < length s)%nat ->
  gradientsBalanced ps0 s ->
  gradientsBalanced ps0 (addRepulsion cfg i j r n s).
Proof.
  intros Hij Hi Hj (L & HR & HU). unfold addRepulsion, gradientsBalanced.
  split; [now rewrite !length_modify|]. split.
  - rewrite !(map_modify_same R_grad _ (fun p => set_R_val _ p))
      by reflexivity.
    rewrite (sumVectors_add_sub R_grad set_R_grad) by (assumption || reflexivity).
    assumption.
  - rewrite !(map_modify_same U_grad) by reflexivity. assumption.
Qed.

Lemma addKernel_balanced (cfg : Config R) (i j : nat) (r : R) (n : Vec3 R)
  (ps0 s : Store R) :
  i <> j -> (i < length s)%nat -> (j < length s)%nat ->
  gradientsBalanced ps0 s ->
  gradientsBalanced ps0 (addKernel cfg i j r n s).
Proof.
  intros Hij Hi Hj (L & HR & HU). unfold addKernel, gradientsBalanced.
  split; [now rewrite !length_modify|]. split.
  - rewrite !(map_modify_same R_grad) by reflexivity. assumption.
  - rewrite !(map_modify_same U_grad _ (fun p => set_U_val _ p))
      by reflexivity.
    rewrite (sumVectors_add_sub U_grad set_U_grad) by (assumption || reflexivity).
    assumption.
Qed.

Lemma pairInteraction_balanced (cfg : Config R) (i j : nat) (ps0 s s' : Store R) :
  i <> j -> (i < length s)%nat -> (j < length s)%nat ->
  gradientsBalanced ps0 s ->
  pairInteraction cfg i j s = Returned s' ->
  gradientsBalanced ps0 s'.
Proof.
  intros Hij Hi Hj Hb. unfold pairInteraction.
  destruct (nth_error s i) as [p1|]; [|discriminate].
  destruct (nth_error s j) as [p2|]; [|discriminate].
  intros E; injection E as <-.
  case_test.
  - apply addKernel_balanced; try assumption;
      try (unfold addRepulsion; now rewrite !length_modify).
    now apply addRepulsion_balanced.
  - now apply addKernel_balanced.
Qed.

(** X7.  Newton's third law, summed: for [sigma_k] different from zero
    (the kernel divides by it), when [computeFields] returns on a store that
    holds [particleCount] particles, the repulsion gradients of all
    particles add up to the zero vector, and so do the potential
    gradients. *)
Theorem computeFields_gradients_cancel (cfg : Config R) (ps : Store R) :
  sigma_k (leniaParams cfg) <> 0%R ->
  (Z.to_nat (particleCount cfg) <= length ps)%nat ->
  exists out,
    computeFields cfg ps = Returned out /\
    sumVectors (map R_grad out) = vzero /\
    sumVectors (map U_grad out) = vzero.
Proof.
  intros _ Hc. destruct (computeFields_returns cfg ps Hc) as (out & E & L).
  exists out. split; [assumption|].
  assert (Hb : gradientsBalanced ps out); [|destruct Hb as (_ & HR & HU); now split].
  unfold computeFields in E.
  apply (forRange_invariant (gradientsBalanced ps)) in E; [assumption| |].
  - intros i t t' Hi Ht Et. unfold pairRow in Et.
    apply (forRange_invariant (gradientsBalanced ps)) in Et; [assumption| |assumption].
    intros j u u' Hj Hu Eu.
    destruct Hu as (Lu & HRu & HUu).
    apply (pairInteraction_balanced cfg i j ps u u'); try assumption; try lia.
    now split.
  - split; [apply length_forOfFrom|].
    rewrite forOf_map, !map_map.
    split; apply sumVectors_zero; reflexivity.
Qed.

End FieldSums.

(** ** Floors of the scalar accumulators *)

Section FieldFloors.

Open Scope R_scope.

Lemma repulsionFunction_fst_nonneg (r c : R) :
  0 <= c -> 0 <= fst (repulsionFunction r c).
Proof.
  intros Hc. rewrite repulsionFunction_fst.
  pose proof (Rmax_r (1 - r) 0) as Hm. set (m := Rmax (1 - r) 0) in *.
  assert (0 <= c * m) by (apply Rmult_le_pos; lra).
  assert (0 <= c * m * m) by (apply Rmult_le_pos; lra). lra.
Qed.

Lemma peakFunction_fst_nonneg (r mu sigma w : R) :
  0 <= w -> 0 <= fst (peakFunction r mu sigma w).
Proof.
  intros Hw. rewrite peakFunction_fst. real_num.
  apply Rmult_le_pos; [assumption|].
  apply Rlt_le, Rinv_0_lt_compat, fastExp_pos, Rle_0_sqr.
Qed.

Lemma Forall_modify {A : Type} (P : A -> Prop) (f : A -> A) (i : nat) (l : list A) :
  (forall x, P x -> P (f x)) -> Forall P l -> Forall P (modify i f l).
Proof.
  intros Hf Hl; revert i; induction Hl as [|x l Hx Hl IH]; intros [|i]; simpl;
    constructor; auto.
Qed.

(** X8.  With [c_rep >= 0], [w_k >= 0] and [sigma_k] different from zero
    (the kernel divides by it) no accumulated value lies below its
    self-term: after [computeFields] every particle has
    [R_val >= repulsionFunction(0, c_rep)[0] = c_rep / 2] and
    [U_val >= peakFunction(0, mu_k, sigma_k, w_k)[0]]. *)
Theorem computeFields_values_at_least_self (cfg : Config R) (ps : Store R) :
  sigma_k (leniaParams cfg) <> 0 ->
  0 <= c_rep (leniaParams cfg) ->
  0 <= w_k (leniaParams cfg) ->
  (Z.to_nat (particleCount cfg) <= length ps)%nat ->
  exists out,
    computeFields cfg ps = Returned out /\
    forall p, In p out ->
      c_rep (leniaParams cfg) / 2 <= R_val p /\
      fst (peakFunction 0 (mu_k (leniaParams cfg)) (sigma_k (leniaParams cfg))
             (w_k (leniaParams cfg))) <= U_val p.
Proof.
  intros _ Hc Hw Hlen.
  destruct (computeFields_returns cfg ps Hlen) as (out & E & _).
  exists out. split; [assumption|].
  set (floor := fun p : Particle R =>
         c_rep (leniaParams cfg) / 2 <= R_val p /\
         fst (peakFunction 0 (mu_k (leniaParams cfg)) (sigma_k (leniaParams cfg))
                (w_k (leniaParams cfg))) <= U_val p).
  assert (HF : Forall floor out); [|intros p Hp; exact (proj1 (Forall_forall _ _) HF p Hp)].
  unfold computeFields in E.
  apply (forRange_invariant (Forall floor)) in E; [assumption| |].
  - intros i t t' _ Ht Et. unfold pairRow in Et.
    apply (forRange_invariant (Forall floor)) in Et; [assumption| |assumption].
    intros j u u' _ Hu Eu. unfold pairInteraction in Eu.
    destruct (nth_error u i) as [p1|]; [|discriminate].
    destruct (nth_error u j) as [p2|]; [|discriminate].
    injection Eu as <-.
    assert (HK : forall r,
               0 <= fst (peakFunction r (mu_k (leniaParams cfg))
                           (sigma_k (leniaParams cfg)) (w_k (leniaParams cfg))))
      by (intros r; now apply peakFunction_fst_nonneg).
    assert (HR : forall r, 0 <= fst (repulsionFunction r (c_rep (leniaParams cfg))))
      by (intros r; now apply repulsionFunction_fst_nonneg).
    unfold addKernel.
    specialize (HK (pairDistance (position p1) (position p2))).
    specialize (HR (pairDistance (position p1) (position p2))).
    repeat (apply Forall_modify;
            [intros x Hx; unfold floor in Hx |- *; destruct Hx as [Hx1 Hx2];
             cbn [R_val U_val set_U_val set_U_grad]; real_num; split; lra|]).
    case_test; [|assumption].
    unfold addRepulsion.
    repeat (apply Forall_modify;
            [intros x Hx; unfold floor in Hx |- *; destruct Hx as [Hx1 Hx2];
             cbn [R_val U_val set_R_val set_R_grad]; real_num; split; lra|]).
    assumption.
  - rewrite forOf_map. apply Forall_forall. intros q Hq.
    apply in_map_iff in Hq. destruct Hq as (p & <- & _).
    unfold floor, resetFields.
    cbn [R_val U_val set_R_val set_U_val set_R_grad set_U_grad]. split.
    + rewrite repulsionFunction_fst. real_num. rewrite Rmax_left by lra. lra.
    + apply Rle_refl.
Qed.

End FieldFloors.

(** ** Symmetries *)

Section Symmetries.

Open Scope R_scope.

Lemma vlength_opp (v : Vec3 R) : vlength (vneg v) = vlength v.
Proof.
  destruct v as [x y z]. unfold vlength, vneg; simpl; real_num.
  f_equal; ring.
Qed.

Lemma subVectors_translate (a b t : Vec3 R) :
  subVectors (vadd a t) (vadd b t) = subVectors a b.
Proof.
  unfold subVectors, vadd; simpl; real_num. f_equal; ring.
Qed.

Lemma subVectors_opp (a b : Vec3 R) :
  subVectors (vneg a) (vneg b) = vneg (subVectors a b).
Proof.
  unfold subVectors, vneg; simpl; real_num. f_equal; ring.
Qed.

Lemma pairDistance_translate (a b t : Vec3 R) :
  pairDistance (vadd a t) (vadd b t) = pairDistance a b.
Proof. unfold pairDistance. now rewrite subVectors_translate. Qed.

Lemma pairDirection_translate (a b t : Vec3 R) :
  pairDirection (vadd a t) (vadd b t) = pairDirection a b.
Proof.
  unfold pairDirection. now rewrite pairDistance_translate, subVectors_translate.
Qed.

Lemma pairDistance_opp (a b : Vec3 R) :
  pairDistance (vneg a) (vneg b) = pairDistance a b.
Proof. unfold pairDistance. now rewrite subVectors_opp, vlength_opp. Qed.

Lemma pairDirection_opp (a b : Vec3 R) :
  pairDirection (vneg a) (vneg b) = vneg (pairDirection a b).
Proof.
  unfold pairDirection. rewrite pairDistance_opp, subVectors_opp. cbv zeta.
  destruct (subVectors a b) as [x y z]. unfold vneg; simpl; real_num.
  f_equal; unfold Rdiv; ring.
Qed.

Lemma modify_map_commute {A : Type} (g f : A -> A) (i : nat) (l : list A) :
  (forall x, f (g x) = g (f x)) ->
  modify i f (map g l) = map g (modify i f l).
Proof. apply modify_map. Qed.

Lemma pairInteraction_translate (cfg : Config R) (t : Vec3 R) (i j : nat)
  (ps : Store R) :
  pairInteraction cfg i j (map (translate t) ps) =
  outcome_map (map (translate t)) (pairInteraction cfg i j ps).
Proof.
  unfold pairInteraction. rewrite !nth_error_map.
  destruct (nth_error ps i) as [p1|]; [|reflexivity].
  destruct (nth_error ps j) as [p2|]; [|reflexivity].
  cbn [option_map]. cbv zeta.
  change (position (translate t p1)) with (vadd (position p1) t).
  change (position (translate t p2)) with (vadd (position p2) t).
  rewrite pairDistance_translate, pairDirection_translate.
  unfold outcome_map; cbn [bind]. f_equal.
  unfold addKernel, addRepulsion.
  case_test; now rewrite !modify_map_commute by reflexivity.
Qed.

(** X9.  The Field Computer sees differences of positions only: moving
    every particle by the same vector changes no accumulator. *)
Theorem computeFields_translation_invariant
  (cfg : Config R) (t : Vec3 R) (ps : Store R) :
  computeFields cfg (map (translate t) ps) =
  outcome_map (map (translate t)) (computeFields cfg ps).
Proof.
  unfold computeFields. rewrite !forOf_map, map_map.
  rewrite (map_ext (fun p => resetFields cfg (translate t p))
                   (fun p => translate t (resetFields cfg p)))
    by reflexivity.
  rewrite <- map_map.
  apply forRange_map. intros i s. unfold pairRow.
  apply forRange_map. intros j u. apply pairInteraction_translate.
Qed.

End Symmetries.

Section Reflection.

Open Scope R_scope.

Lemma vneg_vzero : vneg (@vzero R _) = vzero.
Proof. unfold vneg, vzero; simpl; real_num. f_equal; ring. Qed.

Lemma addGrad_opp (n g : Vec3 R) (d : R) :
  addGrad (vneg n) d (vneg g) = vneg (addGrad n d g).
Proof. unfold addGrad, vneg; simpl; real_num. f_equal; ring. Qed.

Lemma subGrad_opp (n g : Vec3 R) (d : R) :
  subGrad (vneg n) d (vneg g) = vneg (subGrad n d g).
Proof. unfold subGrad, vneg; simpl; real_num. f_equal; ring. Qed.

Lemma addScaledVector_opp (a v : Vec3 R) (s : R) :
  addScaledVector (vneg a) (vneg v) s = vneg (addScaledVector a v s).
Proof. unfold addScaledVector, vneg; simpl; real_num. f_equal; ring. Qed.

Lemma multiplyScalar_opp (v : Vec3 R) (s : R) :
  multiplyScalar (vneg v) s = vneg (multiplyScalar v s).
Proof. unfold multiplyScalar, vneg; simpl; real_num. f_equal; ring. Qed.

Lemma resetFields_reflect (cfg : Config R) (p : Particle R) :
  resetFields cfg (reflect p) = reflect (resetFields cfg p).
Proof.
  unfold resetFields, reflect, set_R_val, set_U_val, set_R_grad, set_U_grad.
  cbn [position velocity R_val U_val R_grad U_grad mesh].
  now rewrite vneg_vzero.
Qed.

Lemma pairInteraction_reflect (cfg : Config R) (i j : nat) (ps : Store R) :
  pairInteraction cfg i j (map reflect ps) =
  outcome_map (map reflect) (pairInteraction cfg i j ps).
Proof.
  unfold pairInteraction. rewrite !nth_error_map.
  destruct (nth_error ps i) as [p1|]; [|reflexivity].
  destruct (nth_error ps j) as [p2|]; [|reflexivity].
  cbn [option_map]. cbv zeta.
  change (position (reflect p1)) with (vneg (position p1)).
  change (position (reflect p2)) with (vneg (position p2)).
  rewrite pairDistance_opp, pairDirection_opp.
  set (r := pairDistance (position p1) (position p2)).
  set (n := pairDirection (position p1) (position p2)).
  unfold outcome_map; cbn [bind]. f_equal.
  assert (HR : forall s, addRepulsion cfg i j r (vneg n) (map reflect s)
                         = map reflect (addRepulsion cfg i j r n s)).
  { intros s. unfold addRepulsion.
    set (R := fst (repulsionFunction r (c_rep (leniaParams cfg)))).
    set (dR := snd (repulsionFunction r (c_rep (leniaParams cfg)))).
    rewrite (modify_map reflect (fun p => set_R_grad (addGrad n dR (R_grad p)) p))
      by (intros x; unfold reflect, set_R_grad;
          cbn [position velocity R_val U_val R_grad U_grad mesh];
          now rewrite addGrad_opp).
    rewrite (modify_map reflect (fun p => set_R_grad (subGrad n dR (R_grad p)) p))
      by (intros x; unfold reflect, set_R_grad;
          cbn [position velocity R_val U_val R_grad U_grad mesh];
          now rewrite subGrad_opp).
    now rewrite !(modify_map reflect (fun p => set_R_val (R_val p + R) p))
      by reflexivity. }
  assert (HK : forall s, addKernel cfg i j r (vneg n) (map reflect s)
                         = map reflect (addKernel cfg i j r n s)).
  { intros s. unfold addKernel.
    set (K := fst (peakFunction r (mu_k (leniaParams cfg)) (sigma_k (leniaParams cfg))
                     (w_k (leniaParams cfg)))).
    set (dK := snd (peakFunction r (mu_k (leniaParams cfg)) (sigma_k (leniaParams cfg))
                      (w_k (leniaParams cfg)))).
    rewrite (modify_map reflect (fun p => set_U_grad (addGrad n dK (U_grad p)) p))
      by (intros x; unfold reflect, set_U_grad;
          cbn [position velocity R_val U_val R_grad U_grad mesh];
          now rewrite addGrad_opp).
    rewrite (modify_map reflect (fun p => set_U_grad (subGrad n dK (U_grad p)) p))
      by (intros x; unfold reflect, set_U_grad;
          cbn [position velocity R_val U_val R_grad U_grad mesh];
          now rewrite subGrad_opp).
    now rewrite !(modify_map reflect (fun p => set_U_val (U_val p + K) p))
      by reflexivity. }
  case_test; now rewrite ?HR, HK.
Qed.

Lemma computeFields_reflect (cfg : Config R) (ps : Store R) :
  computeFields cfg (map reflect ps) =
  outcome_map (map reflect) (computeFields cfg ps).
Proof.
  unfold computeFields. rewrite !forOf_map, map_map.
  rewrite (map_ext _ _ (resetFields_reflect cfg)), <- map_map.
  apply forRange_map. intros i s. unfold pairRow.
  apply forRange_map. intros j u. apply pairInteraction_reflect.
Qed.

Lemma updateVelocity_reflect (cfg : Config R) (p : Particle R) :
  updateVelocity cfg (reflect p) = reflect (updateVelocity cfg p).
Proof.
  unfold updateVelocity, particleForce, reflect, set_velocity. cbv zeta.
  cbn [position velocity R_val U_val R_grad U_grad mesh].
  f_equal.
  destruct (velocity p) as [a b c], (U_grad p) as [ux uy uz], (R_grad p) as [rx ry rz].
  unfold multiplyScalar, addScaledVector, subVectors, vneg; simpl; real_num.
  f_equal; ring.
Qed.

Lemma updatePosition_reflect (cfg : Config R) (p : Particle R) :
  0 <= worldSize cfg ->
  updatePosition cfg (reflect p) = reflect (updatePosition cfg p).
Proof.
  intros HW.
  unfold updatePosition, wrapPosition, advancePosition, reflect, set_position.
  cbn [position velocity R_val U_val R_grad U_grad mesh].
  now rewrite addScaledVector_opp, wrapVector_opposite.
Qed.

(** X10.  The step commutes with the point reflection through the origin,
    for any number of particles, [sigma_k] and [sigma_g] different from zero
    (the step divides by them) and a world size that is not negative:
    stepping the mirror image of a store gives the mirror image of the
    stepped store (positions, velocities and gradients opposite, values
    equal). *)
Theorem simulationStep_reflection (cfg : Config R) (ps : Store R) :
  sigma_k (leniaParams cfg) <> 0 ->
  sigma_g (leniaParams cfg) <> 0 ->
  0 <= worldSize cfg ->
  simulationStep cfg (map reflect ps) =
  outcome_map (map reflect) (simulationStep cfg ps).
Proof.
  intros _ _ HW. rewrite !simulationStep_eq, computeFields_reflect.
  destruct (computeFields cfg ps) as [fs|e]; [|reflexivity].
  unfold outcome_map; cbn [bind]. f_equal.
  rewrite !forOf_map, !map_map. apply map_ext. intros p.
  now rewrite updateVelocity_reflect, updatePosition_reflect.
Qed.

End Reflection.

(** ** More on the boundary wrap *)

Section WrapFacts.

Open Scope R_scope.

(** X11.  The boundary wrap moves a coordinate by one world size or not at
    all, whatever the configuration.  For a world size that is not negative
    it is idempotent on every coordinate that is at most one world size
    outside, and beyond that it is not: a coordinate more than one world
    size above the world is still outside after one wrap and is moved again
    by the next. *)
Theorem wrapAxis_moves_by_world_size (cfg : Config R) :
  (forall x,
     wrapAxis cfg x = x \/
     wrapAxis cfg x = x + worldSize cfg \/
     wrapAxis cfg x = x - worldSize cfg) /\
  (0 <= worldSize cfg ->
   forall x,
     - (3 * worldSize cfg / 2) <= x <= 3 * worldSize cfg / 2 ->
     wrapAxis cfg (wrapAxis cfg x) = wrapAxis cfg x) /\
  (0 < worldSize cfg ->
   forall x,
     3 * worldSize cfg / 2 < x ->
     wrapAxis cfg x = x - worldSize cfg /\
     wrapAxis cfg (wrapAxis cfg x) = x - 2 * worldSize cfg).
Proof.
  split; [|split].
  - intros x. unfold wrapAxis; real_num; cbv zeta.
    destruct (Rltb x (- (worldSize cfg / 2)));
      destruct (Rltb (worldSize cfg / 2) _); auto.
    left. ring.
  - intros HW x Hx. apply wrapAxis_inside. now apply wrapAxis_one_world.
  - intros HW x Hx.
    assert (E : wrapAxis cfg x = x - worldSize cfg) by (apply wrapAxis_above; lra).
    split; [assumption|]. rewrite E, wrapAxis_above by lra. ring.
Qed.

End WrapFacts.

(** ** One particle, two particles *)

Section FewParticles.

Open Scope R_scope.

Lemma multiplyScalar_pow (v : Vec3 R) (d : R) (n : nat) :
  multiplyScalar (multiplyScalar v (d ^ n)) d = multiplyScalar v (d ^ S n).
Proof.
  unfold multiplyScalar; simpl; real_num. f_equal; ring.
Qed.

Lemma multiplyScalar_one (v : Vec3 R) : multiplyScalar v (1 ^ 0) = v.
Proof.
  destruct v. unfold multiplyScalar; simpl; real_num. f_equal; ring.
Qed.

Lemma multiplyScalar_pow_0 (v : Vec3 R) (d : R) : multiplyScalar v (d ^ 0) = v.
Proof.
  destruct v. unfold multiplyScalar; simpl; real_num. f_equal; ring.
Qed.

Lemma updateVelocity_without_gradients (cfg : Config R) (p : Particle R) :
  R_grad p = vzero -> U_grad p = vzero ->
  velocity (updateVelocity cfg p) = multiplyScalar (velocity p) (damping cfg).
Proof.
  intros HR HU.
  rewrite updateVelocity_velocity, (force_without_gradients cfg p HR HU).
  destruct (velocity p) as [a b c].
  unfold multiplyScalar, addScaledVector, vzero; simpl; real_num. f_equal; ring.
Qed.

(** X12.  A particle alone feels no force: with [particleCount = 1], and
    [sigma_k] and [sigma_g] different from zero (the step divides by them),
    the velocity after [n] steps is the initial velocity times [damping^n],
    wherever the particle is and however often it is wrapped. *)
Theorem single_particle_velocity_decay (cfg : Config R) (n : nat) (p : Particle R) :
  sigma_k (leniaParams cfg) <> 0 ->
  sigma_g (leniaParams cfg) <> 0 ->
  particleCount cfg = 1%Z ->
  exists p',
    runSteps cfg n [p] = Returned [p'] /\
    velocity p' = multiplyScalar (velocity p) (damping cfg ^ n).
Proof.
  intros _ _ Hc. unfold runSteps. generalize 0%nat as start.
  assert (Hgen : forall m k (q : Particle R) start,
             velocity q = multiplyScalar (velocity p) (damping cfg ^ k) ->
             exists p',
               forRange (fun _ => simulationStep cfg) start m [q] = Returned [p'] /\
               velocity p' = multiplyScalar (velocity p) (damping cfg ^ (m + k))).
  { induction m as [|m IH]; intros k q start Hq; cbn [forRange].
    - now exists q.
    - rewrite (simulationStep_single cfg q Hc); cbn [bind].
      destruct (IH (S k) (updatePosition cfg (updateVelocity cfg (resetFields cfg q)))
                  (S start)) as (p' & E & Hv).
      + rewrite updatePosition_velocity,
          updateVelocity_without_gradients by reflexivity.
        change (velocity (resetFields cfg q)) with (velocity q).
        now rewrite Hq, multiplyScalar_pow.
      + exists p'. split; [assumption|].
        now replace (S m + k)%nat with (m + S k)%nat by lia. }
  intros start.
  destruct (Hgen n 0%nat p start) as (p' & E & Hv).
  - now rewrite multiplyScalar_pow_0.
  - exists p'. split; [assumption|]. now rewrite Nat.add_0_r in Hv.
Qed.

(** Two particles: the forces are opposite, whatever the positions. *)
Lemma particleForce_opposite (cfg : Config R) (fa fb : Particle R) :
  U_val fa = U_val fb ->
  R_grad fa = vneg (R_grad fb) ->
  U_grad fa = vneg (U_grad fb) ->
  particleForce cfg fa = vneg (particleForce cfg fb).
Proof.
  intros EU ER EG. unfold particleForce. rewrite EU, ER, EG.
  destruct (R_grad fb), (U_grad fb).
  unfold vneg, multiplyScalar, subVectors; simpl; real_num. f_equal; ring.
Qed.

Lemma simulationStep_two_momentum (cfg : Config R) (a b : Particle R) :
  particleCount cfg = 2%Z ->
  exists a' b',
    simulationStep cfg [a; b] = Returned [a'; b'] /\
    vadd (velocity a') (velocity b') =
    multiplyScalar (vadd (velocity a) (velocity b)) (damping cfg).
Proof.
  intros Hc.
  destruct (computeFields_two_opposite cfg a b Hc)
    as (fa & fb & E & _ & Eva & _ & Evb & EU & ER & EG).
  rewrite (simulationStep_unfold cfg [a; b] [fa; fb] E). simpl map.
  eexists; eexists; split; [reflexivity|].
  rewrite !updatePosition_velocity, !updateVelocity_velocity,
    (particleForce_opposite cfg fa fb EU ER EG), Eva, Evb.
  destruct (velocity a), (velocity b), (particleForce cfg fb).
  unfold vadd, vneg, multiplyScalar, addScaledVector; simpl; real_num.
  f_equal; ring.
Qed.

(** X13.  Two particles exchange momentum only with each other: with
    [particleCount = 2], and [sigma_k] and [sigma_g] different from zero
    (the step divides by them), whatever the positions, the sum of the two
    velocities after [n] steps is the sum before times [damping^n]. *)
Theorem two_particles_total_velocity (cfg : Config R) (n : nat) (a b : Particle R) :
  sigma_k (leniaParams cfg) <> 0 ->
  sigma_g (leniaParams cfg) <> 0 ->
  particleCount cfg = 2%Z ->
  exists a' b',
    runSteps cfg n [a; b] = Returned [a'; b'] /\
    vadd (velocity a') (velocity b') =
    multiplyScalar (vadd (velocity a) (velocity b)) (damping cfg ^ n).
Proof.
  intros _ _ Hc. unfold runSteps. generalize 0%nat as start.
  assert (Hgen : forall m k (x y : Particle R) start,
             vadd (velocity x) (velocity y) =
             multiplyScalar (vadd (velocity a) (velocity b)) (damping cfg ^ k) ->
             exists a' b',
               forRange (fun _ => simulationStep cfg) start m [x; y]
                 = Returned [a'; b'] /\
               vadd (velocity a') (velocity b') =
               multiplyScalar (vadd (velocity a) (velocity b))
                 (damping cfg ^ (m + k))).
  { induction m as [|m IH]; intros k x y start Hxy; cbn [forRange].
    - now exists x, y.
    - destruct (simulationStep_two_momentum cfg x y Hc) as (x' & y' & E & Hv).
      rewrite E; cbn [bind].
      destruct (IH (S k) x' y' (S start)) as (a' & b' & E' & Hv').
      + now rewrite Hv, Hxy, multiplyScalar_pow.
      + exists a', b'. split; [assumption|].
        now replace (S m + k)%nat with (m + S k)%nat by lia. }
  intros start.
  destruct (Hgen n 0%nat a b start) as (a' & b' & E & Hv).
  - now rewrite multiplyScalar_pow_0.
  - exists a', b'. split; [assumption|]. now rewrite Nat.add_0_r in Hv.
Qed.

Lemma pairDirection_same_place (a : Vec3 R) : pairDirection a a = vzero.
Proof.
  assert (Hr : pairDistance a a <> 0) by (pose proof (pairDistance_pos a a); lra).
  unfold pairDirection. cbv zeta. set (r := pairDistance a a) in *.
  destruct a as [x y z]. unfold subVectors, vzero; simpl; real_num.
  f_equal; field; assumption.
Qed.

Lemma computeFields_two_same_place (cfg : Config R) (a b : Particle R) :
  particleCount cfg = 2%Z ->
  position a = position b ->
  exists fa fb,
    computeFields cfg [a; b] = Returned [fa; fb] /\
    position fa = position a /\ velocity fa = velocity a /\
    position fb = position b /\ velocity fb = velocity b /\
    R_grad fa = vzero /\ U_grad fa = vzero /\
    R_grad fb = vzero /\ U_grad fb = vzero.
Proof.
  intros Hc Hpos. rewrite (computeFields_two cfg a b Hc).
  unfold pairInteraction; simpl nth_error; cbv iota.
  change (position (resetFields cfg a)) with (position a).
  change (position (resetFields cfg b)) with (position b).
  rewrite Hpos, pairDirection_same_place.
  case_test; unfold addKernel, addRepulsion; simpl modify;
    (eexists; eexists; split; [reflexivity|]); simpl;
    repeat split; try congruence;
    unfold addGrad, subGrad, vzero; simpl; real_num; f_equal; ring.
Qed.

Lemma simulationStep_two_same_place (cfg : Config R) (a b : Particle R) :
  particleCount cfg = 2%Z ->
  position a = position b ->
  velocity a = velocity b ->
  exists a' b',
    simulationStep cfg [a; b] = Returned [a'; b'] /\
    position a' = position b' /\
    velocity a' = velocity b' /\
    velocity a' = multiplyScalar (velocity a) (damping cfg).
Proof.
  intros Hc Hpos Hvel.
  destruct (computeFields_two_same_place cfg a b Hc Hpos)
    as (fa & fb & E & Epa & Eva & Epb & Evb & HRa & HUa & HRb & HUb).
  rewrite (simulationStep_unfold cfg [a; b] [fa; fb] E). simpl map.
  eexists; eexists; split; [reflexivity|].
  assert (Hva : velocity (updateVelocity cfg fa)
                = multiplyScalar (velocity a) (damping cfg))
    by (rewrite updateVelocity_without_gradients by assumption; congruence).
  assert (Hvb : velocity (updateVelocity cfg fb)
                = multiplyScalar (velocity a) (damping cfg))
    by (rewrite updateVelocity_without_gradients by assumption; congruence).
  rewrite !updatePosition_position, !updatePosition_velocity,
    !updateVelocity_position, Hva, Hvb, Epa, Epb, Hpos.
  auto.
Qed.

(** X14.  The repulsion does not separate two particles that are at the
    same place: the direction between them is the zero vector, so neither
    feels a force.  With [particleCount = 2], and [sigma_k] and [sigma_g]
    different from zero (the step divides by them), two particles with the
    same position and the same velocity have the same position and the same
    velocity after any number of steps, and that velocity is the initial one
    times [damping^n]. *)
Theorem coincident_particles_stay_together
  (cfg : Config R) (n : nat) (a b : Particle R) :
  sigma_k (leniaParams cfg) <> 0 ->
  sigma_g (leniaParams cfg) <> 0 ->
  particleCount cfg = 2%Z ->
  position a = position b ->
  velocity a = velocity b ->
  exists a' b',
    runSteps cfg n [a; b] = Returned [a'; b'] /\
    position a' = position b' /\
    velocity a' = velocity b' /\
    velocity a' = multiplyScalar (velocity a) (damping cfg ^ n).
Proof.
  intros _ _ Hc Hpos Hvel. unfold runSteps. generalize 0%nat as start.
  assert (Hgen : forall m k (x y : Particle R) start,
             position x = position y -> velocity x = velocity y ->
             velocity x = multiplyScalar (velocity a) (damping cfg ^ k) ->
             exists a' b',
               forRange (fun _ => simulationStep cfg) start m [x; y]
                 = Returned [a'; b'] /\
               position a' = position b' /\
               velocity a' = velocity b' /\
               velocity a' = multiplyScalar (velocity a) (damping cfg ^ (m + k))).
  { induction m as [|m IH]; intros k x y start Hp Hv Hk; cbn [forRange].
    - now exists x, y.
    - destruct (simulationStep_two_same_place cfg x y Hc Hp Hv)
        as (x' & y' & E & Hp' & Hv' & Hd).
      rewrite E; cbn [bind].
      destruct (IH (S k) x' y' (S start) Hp' Hv') as (a' & b' & E' & H1 & H2 & H3).
      + now rewrite Hd, Hk, multiplyScalar_pow.
      + exists a', b'. split; [assumption|]. split; [assumption|].
        split; [assumption|].
        now replace (S m + k)%nat with (m + S k)%nat by lia. }
  intros start.
  destruct (Hgen n 0%nat a b start Hpos Hvel) as (a' & b' & E & H1 & H2 & H3).
  - now rewrite multiplyScalar_pow_0.
  - exists a', b'. split; [assumption|]. split; [assumption|].
    split; [assumption|]. now rewrite Nat.add_0_r in H3.
Qed.

End FewParticles.

(** ** The range of the repulsion, the length of the direction *)

Section ShortRange.

Context {F : Type} `{JsNumber F}.

Lemma positions_of_frame (s t : Store F) :
  map frameView s = map frameView t -> map position s = map position t.
Proof.
  intros E.
  assert (Hp : forall u : Store F,
             map position u = map (fun v => fst (fst v)) (map frameView u))
    by (intros u; rewrite map_map; reflexivity).
  now rewrite (Hp s), E, <- Hp.
Qed.

Lemma position_nth (s t : Store F) (i : nat) (p : Particle F) :
  map position s = map position t ->
  nth_error s i = Some p ->
  exists q, nth_error t i = Some q /\ position q = position p.
Proof.
  intros E Hp. pose proof (nth_error_view position s t i E) as Ei.
  rewrite Hp in Ei. destruct (nth_error t i) as [q|]; simpl in Ei; [|discriminate].
  exists q. split; [reflexivity | congruence].
Qed.

Lemma pairInteraction_untouched (cfg : Config F) (ps0 : Store F) (k i j : nat)
  (pk : Particle F) (s s' : Store F) :
  i <> j ->
  nth_error ps0 k = Some pk ->
  (forall m pm, nth_error ps0 m = Some pm ->
     (k < m -> nltb (pairDistance (position pk) (position pm)) num1 = false)%nat /\
     (m < k -> nltb (pairDistance (position pm) (position pk)) num1 = false)%nat) ->
  (i < j)%nat ->
  untouchedAt cfg ps0 k s ->
  pairInteraction cfg i j s = Returned s' ->
  untouchedAt cfg ps0 k s'.
Proof.
  intros Hij Hk Hfar Hlt (Hpos & q & Hq & HRv & HRg) E.
  split.
  - rewrite <- Hpos. apply positions_of_frame.
    now apply (pairInteraction_frame cfg i j).
  - unfold pairInteraction in E.
    destruct (nth_error s i) as [p1|] eqn:E1; [|discriminate].
    destruct (nth_error s j) as [p2|] eqn:E2; [|discriminate].
    injection E as <-.
    destruct (position_nth s ps0 i p1 Hpos E1) as (p1' & E1' & Ep1).
    destruct (position_nth s ps0 j p2 Hpos E2) as (p2' & E2' & Ep2).
    destruct (position_nth s ps0 k q Hpos Hq) as (pk' & Ek' & Epk).
    assert (pk' = pk) by congruence. subst pk'.
    destruct (Nat.eq_dec k i) as [->|Hki]; [|destruct (Nat.eq_dec k j) as [->|Hkj]].
    + assert (Efar : nltb (pairDistance (position p1) (position p2)) num1 = false).
      { assert (q = p1) by congruence. subst q.
        rewrite <- Epk, <- Ep2. apply (proj1 (Hfar j p2' E2')). exact Hlt. }
      rewrite Efar, addKernel_nth by assumption.
      destruct (Nat.eq_dec i i); [|congruence]. rewrite Hq. cbn [option_map].
      eexists; split; [reflexivity|]. split; assumption.
    + assert (Efar : nltb (pairDistance (position p1) (position p2)) num1 = false).
      { assert (q = p2) by congruence. subst q.
        rewrite <- Epk, <- Ep1. apply (proj2 (Hfar i p1' E1')). exact Hlt. }
      rewrite Efar, addKernel_nth by assumption.
      destruct (Nat.eq_dec j i); [congruence|].
      destruct (Nat.eq_dec j j); [|congruence]. rewrite Hq. cbn [option_map].
      eexists; split; [reflexivity|]. split; assumption.
    + exists q. split; [|split; assumption].
      rewrite addKernel_nth by assumption.
      destruct (Nat.eq_dec k i); [congruence|].
      destruct (Nat.eq_dec k j); [congruence|].
      case_test; [|assumption].
      rewrite addRepulsion_nth by assumption.
      destruct (Nat.eq_dec k i); [congruence|].
      destruct (Nat.eq_dec k j); [congruence|]. assumption.
Qed.

(** X20.  The repulsion has range 1, for every number type: a particle for
    which the test [r < 1.0] fails against every other particle of the
    store leaves [computeFields] with [R_val] at its self-term
    [repulsionFunction(0, c_rep)[0]] and with the zero vector in [R_grad],
    however many particles there are and wherever they are. *)
Theorem repulsion_has_range_one
  (cfg : Config F) (ps : Store F) (k : nat) (pk : Particle F) :
  (Z.to_nat (particleCount cfg) <= length ps)%nat ->
  nth_error ps k = Some pk ->
  (forall m pm, nth_error ps m = Some pm ->
     (k < m -> nltb (pairDistance (position pk) (position pm)) num1 = false)%nat /\
     (m < k -> nltb (pairDistance (position pm) (position pk)) num1 = false)%nat) ->
  exists out q,
    computeFields cfg ps = Returned out /\
    nth_error out k = Some q /\
    R_val q = fst (repulsionFunction num0 (c_rep (leniaParams cfg))) /\
    R_grad q = vzero.
Proof.
  intros Hc Hk Hfar.
  destruct (computeFields_returns cfg ps Hc) as (out & E & _).
  assert (Hu : untouchedAt cfg ps k out).
  { unfold computeFields in E.
    apply (forRange_invariant (untouchedAt cfg ps k)) in E; [assumption| |].
    - intros i t t' _ Ht Et. unfold pairRow in Et.
      apply (forRange_invariant (untouchedAt cfg ps k)) in Et; [assumption| |assumption].
      intros j u u' Hj Hu Eu.
      apply (pairInteraction_untouched cfg ps k i j pk u u'); try assumption; lia.
    - split.
      + rewrite forOf_map, map_map. apply map_ext. reflexivity.
      + exists (resetFields cfg pk). rewrite forOf_map, nth_error_map, Hk.
        repeat split. }
  destruct Hu as (_ & q & Hq & HRv & HRg).
  now exists out, q.
Qed.

End ShortRange.

Section DirectionLength.

Open Scope R_scope.


End DirectionLength.

(** ** Creating the store, and running from it *)

Section CreatedStore.

Open Scope R_scope.

(** X15.  With [Math.random()] in [[0, 1)] and a positive [initialSpread],
    every coordinate of every created particle lies in
    [[-initialSpread/2, initialSpread/2)]; when the spread is at most the
    world size, every created particle is inside the world. *)
Theorem initParticles_positions_in_cube (cfg : Config R) (rand : nat -> R) :
  (forall k, 0 <= rand k < 1) ->
  0 < initialSpread cfg ->
  exists ps,
    initParticles cfg rand = Returned ps /\
    forall p, In p ps ->
      (- (initialSpread cfg / 2) <= vx (position p) < initialSpread cfg / 2 /\
       - (initialSpread cfg / 2) <= vy (position p) < initialSpread cfg / 2 /\
       - (initialSpread cfg / 2) <= vz (position p) < initialSpread cfg / 2) /\
      (initialSpread cfg <= worldSize cfg -> vecInWorld cfg (position p)).
Proof.
  intros Hrand Hs. eexists; split; [reflexivity|].
  intros p Hp. apply In_nth_error in Hp. destruct Hp as [k Hk].
  assert (Hlt : (k < Z.to_nat (particleCount cfg))%nat).
  { assert (L : length (initLoop cfg rand (Z.to_nat (particleCount cfg)) 0 [])
                = Z.to_nat (particleCount cfg))
      by (rewrite initLoop_length; reflexivity).
    rewrite <- L. apply nth_error_Some. congruence. }
  pose proof (initLoop_nth cfg rand _ k Hlt) as Hn.
  remember (3 * k)%nat as i eqn:Ei in Hn. clear Ei.
  rewrite Hn in Hk. injection Hk as <-.
  pose proof (Hrand i) as H0.
  pose proof (Hrand (i + 1)%nat) as H1.
  pose proof (Hrand (i + 2)%nat) as H2.
  unfold newParticle, set_mesh; cbn [position vx vy vz]. real_num.
  set (s := initialSpread cfg) in *.
  set (a := rand i) in *.
  set (b := rand (i + 1)%nat) in *.
  set (c := rand (i + 2)%nat) in *.
  assert (Ha : - (s / 2) <= (a - 1 / 2) * s < s / 2) by (split; nra).
  assert (Hb : - (s / 2) <= (b - 1 / 2) * s < s / 2) by (split; nra).
  assert (Hc : - (s / 2) <= (c - 1 / 2) * s < s / 2) by (split; nra).
  split; [repeat split; lra|].
  intros HW. unfold vecInWorld, inWorld; cbn [vx vy vz]. repeat split; lra.
Qed.

End CreatedStore.

Section RunningStore.

Context {F : Type} `{JsNumber F}.

Lemma simulationStep_keeps (cfg : Config F) (ps out : Store F) :
  simulationStep cfg ps = Returned out ->
  length out = length ps /\ map mesh out = map mesh ps.
Proof.
  rewrite simulationStep_eq.
  destruct (computeFields cfg ps) as [fs|e] eqn:E; simpl; [|discriminate].
  intros Eo; injection Eo as <-.
  pose proof (computeFields_frame cfg ps fs E) as Hframe.
  rewrite !forOf_map. split.
  - rewrite !length_map. rewrite <- (length_map frameView fs), Hframe.
    apply length_map.
  - rewrite !map_map.
    transitivity (map snd (map frameView fs)); [now rewrite map_map|].
    now rewrite Hframe, map_map.
Qed.

Lemma runSteps_returns (cfg : Config F) (n : nat) (ps : Store F) :
  (Z.to_nat (particleCount cfg) <= length ps)%nat ->
  exists out,
    runSteps cfg n ps = Returned out /\
    length out = length ps /\ map mesh out = map mesh ps.
Proof.
  intros Hc. unfold runSteps.
  apply (forRange_returns
           (fun s => length s = length ps /\ map mesh s = map mesh ps)); [|auto].
  intros k t _ [Lt Mt].
  destruct (simulationStep_returns cfg t) as (t' & Et & _); [lia|].
  exists t'. split; [assumption|].
  destruct (simulationStep_keeps cfg t t' Et) as [L M]. split; congruence.
Qed.

Lemma initParticles_store (cfg : Config F) (rand : nat -> F) :
  exists ps,
    initParticles cfg rand = Returned ps /\
    length ps = Z.to_nat (particleCount cfg) /\
    forall p, In p ps -> mesh p = Some (position p).
Proof.
  eexists; split; [reflexivity|]. split.
  - now rewrite initLoop_length.
  - intros p Hp. rewrite initLoop_eq in Hp. simpl in Hp.
    apply in_map_iff in Hp. destruct Hp as (k & <- & _). reflexivity.
Qed.

(** X16.  A store made by [initParticles] can be stepped for ever: for
    every configuration, every source of random numbers and every [n], the
    [n] steps return a store of as many particles as were created.  The
    steps never touch the display handles: every mesh stays where
    [initParticles] put it. *)
Theorem created_store_steps_for_ever (cfg : Config F) (rand : nat -> F) (n : nat) :
  exists ps out,
    initParticles cfg rand = Returned ps /\
    runSteps cfg n ps = Returned out /\
    length out = Z.to_nat (particleCount cfg) /\
    map mesh out = map mesh ps.
Proof.
  destruct (initParticles_store cfg rand) as (ps & E & L & _).
  destruct (runSteps_returns cfg n ps) as (out & Eo & Lo & Mo); [lia|].
  exists ps, out. repeat split; congruence.
Qed.

(** *** The application *)

Lemma syncMesh_synced (ps : Store F) :
  (forall p, In p ps -> exists m, mesh p = Some m) ->
  forall q, In q (forOf syncMesh ps) -> mesh q = Some (position q).
Proof.
  intros Hm q Hq. rewrite forOf_map in Hq. apply in_map_iff in Hq.
  destruct Hq as (p & <- & Hp). destruct (Hm p Hp) as [m Em].
  unfold syncMesh. now rewrite Em.
Qed.

Lemma mesh_present (s t : Store F) :
  map mesh s = map mesh t ->
  (forall p, In p t -> mesh p = Some (position p)) ->
  forall p, In p s -> exists m, mesh p = Some m.
Proof.
  revert t; induction s as [|x s IH]; intros [|y t] E Ht p Hp; simpl in *;
    try discriminate; [contradiction|].
  injection E as Exy E. destruct Hp as [<-|Hp].
  - rewrite Exy, (Ht y) by auto. eauto.
  - apply (IH t E); auto.
Qed.

Lemma animate_invariant (cfg : Config F) (b : bool) (app : App F) :
  appInvariant cfg b app ->
  exists app', animate cfg app = Returned app' /\ appInvariant cfg b app'.
Proof.
  intros (L & M & T). unfold animate.
  destruct (isPaused app) eqn:Ep.
  - exists app. split; [reflexivity|]. unfold appInvariant. rewrite Ep. auto.
  - destruct (runSteps_returns cfg (Z.to_nat (steps_per_frame (leniaParams cfg)))
                (particles app)) as (out & Eo & Lo & Mo); [lia|].
    rewrite Eo; cbn [bind]. eexists; split; [reflexivity|].
    unfold appInvariant; cbn [particles isPaused startStopText].
    split; [|split].
    + unfold forOf. rewrite length_forOfFrom. congruence.
    + apply syncMesh_synced. now apply (mesh_present out (particles app)).
    + exact T.
Qed.

Lemma handleReset_invariant (cfg : Config F) (b : bool) (app : App F) :
  startStopText app = (if b then Some (pauseLabel (isPaused app)) else None) ->
  exists app',
    handleReset cfg app = Returned app' /\
    appInvariant cfg b app' /\ isPaused app' = false.
Proof.
  intros T. unfold handleReset.
  destruct (initParticles_store cfg (randomNumbers app)) as (ps & E & L & M).
  rewrite E; cbn [bind]. eexists; split; [reflexivity|].
  unfold appInvariant; cbn [particles isPaused startStopText].
  repeat split; try assumption.
  rewrite T. destruct b; reflexivity.
Qed.

Lemma dispatch_invariant (cfg : Config F) (b : bool) (ev : Event) (app : App F) :
  appInvariant cfg b app ->
  exists app', dispatch cfg ev app = Returned app' /\ appInvariant cfg b app'.
Proof.
  intros Hinv. destruct ev; cbn [dispatch].
  - now apply animate_invariant.
  - eexists; split; [reflexivity|].
    destruct Hinv as (L & M & T).
    unfold appInvariant, handleStartStop; cbn [particles isPaused startStopText].
    repeat split; try assumption.
    rewrite T. destruct b; reflexivity.
  - destruct Hinv as (_ & _ & T).
    destruct (handleReset_invariant cfg b app T) as (app' & E & Hinv' & _).
    now exists app'.
Qed.

(** X17.  The application never throws and keeps its invariant: for every
    configuration, every source of random numbers, with or without a
    start/stop button in the page, and every sequence of animation frames
    and clicks after [main()], every handler returns, and afterwards the
    array holds [max(particleCount, 0)] particles, every mesh is at the
    position of its particle, and the button (when there is one) reads
    [Resume] if the simulation is paused and [Pause] if it runs. *)
Theorem application_keeps_invariant
  (cfg : Config F) (rand : nat -> F) (button : option String.string)
  (evs : list Event) :
  exists app0 app,
    main cfg rand button = Returned app0 /\
    runEvents cfg evs app0 = Returned app /\
    appInvariant cfg (hasElement button) app0 /\
    appInvariant cfg (hasElement button) app.
Proof.
  set (b := hasElement button).
  assert (Hstart : exists app0,
             main cfg rand button = Returned app0 /\ appInvariant cfg b app0).
  { unfold main.
    destruct (initParticles_store cfg rand) as (ps & E & L & M).
    rewrite E; cbn [bind]. apply animate_invariant.
    unfold appInvariant; cbn [particles isPaused startStopText].
    repeat split; try assumption.
    unfold b. destruct button; reflexivity. }
  destruct Hstart as (app0 & E0 & H0).
  assert (Hrun : forall evs app, appInvariant cfg b app ->
             exists app', runEvents cfg evs app = Returned app' /\
                          appInvariant cfg b app').
  { clear. induction evs as [|ev evs IH]; intros app Hinv; cbn [runEvents].
    - now exists app.
    - destruct (dispatch_invariant cfg b ev app Hinv) as (app1 & E1 & H1).
      rewrite E1; cbn [bind]. now apply IH. }
  destruct (Hrun evs app0 H0) as (app & E & Hinv).
  now exists app0, app.
Qed.

(** X18.  Pausing freezes the store: from a running application, a click
    on the start/stop button, any number of animation frames, and a second
    click give back the very same particles, with the simulation running
    again; and a reset resumes a paused simulation. *)
Theorem pause_freezes_the_store (cfg : Config F) (k : nat) (app : App F) :
  isPaused app = false ->
  (exists app',
     runEvents cfg ([ClickStartStop] ++ repeat AnimationFrame k ++ [ClickStartStop]) app
       = Returned app' /\
     particles app' = particles app /\
     isPaused app' = false /\
     randomNumbers app' = randomNumbers app) /\
  (exists app',
     runEvents cfg [ClickStartStop; ClickReset] app = Returned app' /\
     isPaused app' = false).
Proof.
  intros Hp. split.
  - cbn [List.app runEvents dispatch bind].
    assert (Hfrozen : forall m a, isPaused a = true ->
               runEvents cfg (repeat AnimationFrame m ++ [ClickStartStop]) a
               = Returned (handleStartStop a)).
    { induction m as [|m IH]; intros a Ha; cbn [repeat List.app runEvents dispatch bind].
      - reflexivity.
      - unfold animate. rewrite Ha. cbn [bind]. now apply IH. }
    rewrite Hfrozen by (cbn [handleStartStop isPaused]; now rewrite Hp).
    eexists; split; [reflexivity|].
    cbn [handleStartStop particles isPaused randomNumbers]. rewrite Hp.
    repeat split.
  - cbn [runEvents dispatch bind]. unfold handleReset.
    destruct (initParticles_store cfg (randomNumbers (handleStartStop app)))
      as (ps & E & _).
    rewrite E; cbn [bind]. eexists; split; reflexivity.
Qed.

End RunningStore.

(** ** Clearing the scene *)

Section SceneClearing.

Lemma sceneRemove_first (pre post : list SceneObject) (obj : SceneObject) :
  ~ In (objectId obj) (map objectId pre) ->
  sceneRemove obj (pre ++ obj :: post) = pre ++ post.
Proof.
  induction pre as [|c pre IH]; intros Hnot; simpl.
  - now rewrite Nat.eqb_refl.
  - destruct (Nat.eqb_spec (objectId c) (objectId obj)) as [E|E].
    + exfalso. apply Hnot. simpl. now left.
    + f_equal. apply IH. intros Hin. apply Hnot. simpl. now right.
Qed.

Lemma clearFrom_prefix (pre post : list SceneObject) :
  NoDup (map objectId pre) ->
  clearFrom (length pre) (pre ++ post) =
  Returned (filter (fun c => negb (isParticle c)) pre ++ post).
Proof.
  revert post. induction pre as [|x pre IH] using rev_ind; intros post Hnd.
  - reflexivity.
  - rewrite length_app, Nat.add_comm; cbn [length Nat.add clearFrom].
    rewrite <- app_assoc; cbn [app].
    rewrite nth_error_app2, Nat.sub_diag by lia; cbn [nth_error].
    rewrite map_app in Hnd. apply NoDup_remove in Hnd.
    rewrite app_nil_r in Hnd. destruct Hnd as [Hnd Hnot].
    rewrite filter_app; cbn [filter].
    destruct (isParticle x); cbn [negb].
    + rewrite sceneRemove_first by assumption.
      rewrite IH by assumption. now rewrite app_nil_r.
    + rewrite IH by assumption. now rewrite <- app_assoc.
Qed.

(** X19.  The loop that clears the scene in [initParticles] runs from the
    last child down to the first and removes while it goes: on a scene whose
    children are distinct objects it never reads past the end, it removes
    exactly the children flagged [isParticle], and it keeps the others
    (the lights) in their order. *)
Theorem clearParticleMeshes_filters (children : list SceneObject) :
  NoDup (map objectId children) ->
  clearParticleMeshes children =
  Returned (filter (fun c => negb (isParticle c)) children).
Proof.
  intros Hnd. unfold clearParticleMeshes.
  rewrite <- (app_nil_r children) at 2.
  rewrite clearFrom_prefix by assumption. now rewrite app_nil_r.
Qed.

End SceneClearing.

(** ** The further properties at concrete inputs *)

Lemma peakFunction_bump_witness :
  (1 <> 0)%R /\
  peakFunction 4%R 4%R 1%R (22 / 1000)%R = ((22 / 1000)%R, 0%R).
Proof.
  assert (H1 : (1 <> 0)%R) by lra.
  split; [exact H1|].
  exact (proj1 (peakFunction_bump 4%R 1%R (22 / 1000)%R H1)).
Defined.

Lemma peakFunction_derivative_of_value_witness :
  (1 <> 0)%R /\
  derivable_pt_lim (fun x => fst (peakFunction x 4%R 1%R (22 / 1000)%R)) 0%R
    (snd (peakFunction 0%R 4%R 1%R (22 / 1000)%R)
     / (1 + (0 - 4) / 1 * ((0 - 4) / 1) / 32))%R.
Proof.
  assert (H1 : (1 <> 0)%R) by lra.
  split; [exact H1|].
  exact (peakFunction_derivative_of_value 0%R 4%R 1%R (22 / 1000)%R H1).
Defined.

Lemma repulsionFunction_range_witness :
  (0 <= 1)%R /\ repulsionFunction 0%R 1%R = ((1 / 2)%R, (- (1))%R).
Proof.
  assert (H1 : (0 <= 1)%R) by lra.
  split; [exact H1|].
  exact (proj1 (repulsionFunction_range 1%R H1)).
Defined.

Lemma computeFields_gradients_cancel_witness :
  exists out,
    computeFields (withParticleCount 2 configR) scenarioR = Returned out /\
    sumVectors (map R_grad out) = vzero /\
    sumVectors (map U_grad out) = vzero.
Proof.
  assert (Hc : (Z.to_nat (particleCount (withParticleCount 2 configR))
                <= length scenarioR)%nat) by (simpl; lia).
  assert (Hk : sigma_k (leniaParams (withParticleCount 2 configR)) <> 0%R)
    by (simpl; lra).
  exact (computeFields_gradients_cancel (withParticleCount 2 configR) scenarioR
           Hk Hc).
Defined.

Lemma computeFields_values_at_least_self_witness :
  exists out,
    computeFields (withParticleCount 2 configR) scenarioR = Returned out /\
    forall p, In p out -> (1 / 2 <= R_val p)%R.
Proof.
  assert (Hc : (Z.to_nat (particleCount (withParticleCount 2 configR))
                <= length scenarioR)%nat) by (simpl; lia).
  assert (H1 : (0 <= c_rep (leniaParams (withParticleCount 2 configR)))%R)
    by (simpl; lra).
  assert (H2 : (0 <= w_k (leniaParams (withParticleCount 2 configR)))%R)
    by (simpl; lra).
  assert (Hk : sigma_k (leniaParams (withParticleCount 2 configR)) <> 0%R)
    by (simpl; lra).
  destruct (computeFields_values_at_least_self (withParticleCount 2 configR)
              scenarioR Hk H1 H2 Hc) as (out & E & Hfloor).
  exists out. split; [exact E|].
  intros p Hp. destruct (Hfloor p Hp) as [HR _]. simpl in HR. lra.
Defined.

Lemma simulationStep_reflection_witness :
  simulationStep (withParticleCount 2 configR) (map reflect scenarioR) =
  outcome_map (map reflect) (simulationStep (withParticleCount 2 configR) scenarioR).
Proof.
  assert (HW : (0 <= worldSize (withParticleCount 2 configR))%R) by (simpl; lra).
  assert (Hk : sigma_k (leniaParams (withParticleCount 2 configR)) <> 0%R)
    by (simpl; lra).
  assert (Hg : sigma_g (leniaParams (withParticleCount 2 configR)) <> 0%R)
    by (simpl; lra).
  exact (simulationStep_reflection (withParticleCount 2 configR) scenarioR
           Hk Hg HW).
Defined.

Lemma single_particle_velocity_decay_witness :
  exists p',
    runSteps (withParticleCount 1 configR) 3 [particleMoving 0%R 1000%R]
      = Returned [p'] /\
    velocity p' =
      multiplyScalar (mkVec3 1000%R 0%R 0%R) ((98 / 100) ^ 3)%R.
Proof.
  assert (Hk : sigma_k (leniaParams (withParticleCount 1 configR)) <> 0%R)
    by (simpl; lra).
  assert (Hg : sigma_g (leniaParams (withParticleCount 1 configR)) <> 0%R)
    by (simpl; lra).
  exact (single_particle_velocity_decay (withParticleCount 1 configR) 3
           (particleMoving 0%R 1000%R) Hk Hg eq_refl).
Defined.

Lemma two_particles_total_velocity_witness :
  exists a' b',
    runSteps (withParticleCount 2 configR) 3 scenarioR = Returned [a'; b'] /\
    vadd (velocity a') (velocity b') =
    multiplyScalar (vadd vzero vzero) ((98 / 100) ^ 3)%R.
Proof.
  assert (Hk : sigma_k (leniaParams (withParticleCount 2 configR)) <> 0%R)
    by (simpl; lra).
  assert (Hg : sigma_g (leniaParams (withParticleCount 2 configR)) <> 0%R)
    by (simpl; lra).
  exact (two_particles_total_velocity (withParticleCount 2 configR) 3
           (particleAt (-1)%R 0%R 0%R) (particleAt 1%R 0%R 0%R) Hk Hg eq_refl).
Defined.

Lemma coincident_particles_stay_together_witness :
  exists a' b',
    runSteps (withParticleCount 2 configR) 3 coincidentR = Returned [a'; b'] /\
    position a' = position b'.
Proof.
  assert (Hk : sigma_k (leniaParams (withParticleCount 2 configR)) <> 0%R)
    by (simpl; lra).
  assert (Hg : sigma_g (leniaParams (withParticleCount 2 configR)) <> 0%R)
    by (simpl; lra).
  destruct (coincident_particles_stay_together (withParticleCount 2 configR) 3
              (particleAt 1%R 2%R 3%R) (particleAt 1%R 2%R 3%R)
              Hk Hg eq_refl eq_refl eq_refl) as (a' & b' & E & Hp & _).
  exists a', b'. split; [exact E | exact Hp].
Defined.

Lemma initParticles_positions_in_cube_witness :
  exists ps,
    initParticles configR randHalf = Returned ps /\
    forall p, In p ps -> vecInWorld configR (position p).
Proof.
  assert (Hrand : forall k, (0 <= randHalf k < 1)%R)
    by (intros k; unfold randHalf; lra).
  assert (Hs : (0 < initialSpread configR)%R) by (simpl; lra).
  destruct (initParticles_positions_in_cube configR randHalf Hrand Hs)
    as (ps & E & Hcube).
  exists ps. split; [exact E|].
  intros p Hp. apply (proj2 (Hcube p Hp)). simpl; lra.
Defined.

Lemma pause_freezes_the_store_witness :
  exists app',
    runEvents (withParticleCount 2 config)
      ([ClickStartStop] ++ repeat AnimationFrame 2 ++ [ClickStartStop]) runningApp
      = Returned app' /\
    particles app' = scenario.
Proof.
  destruct (pause_freezes_the_store (withParticleCount 2 config) 2 runningApp eq_refl)
    as ((app' & E & Hp & _) & _).
  exists app'. split; [exact E | exact Hp].
Defined.

Lemma clearParticleMeshes_filters_witness :
  clearParticleMeshes sceneOfFour =
  Returned [mkSceneObject 0 false; mkSceneObject 1 false].
Proof.
  assert (Hnd : NoDup (map objectId sceneOfFour)).
  { simpl. repeat constructor; simpl; intuition lia. }
  exact (clearParticleMeshes_filters sceneOfFour Hnd).
Defined.

Lemma repulsion_has_range_one_witness :
  exists out q,
    computeFields (withParticleCount 2 config) scenario = Returned out /\
    nth_error out 0 = Some q /\
    R_val q = 0.5%float /\
    R_grad q = vzero.
Proof.
  assert (Hc : (Z.to_nat (particleCount (withParticleCount 2 config))
                <= length scenario)%nat) by (simpl; lia).
  assert (Hfar : forall m pm, nth_error scenario m = Some pm ->
            (0 < m ->
             nltb (pairDistance (position (particleAt (-1)%float 0%float 0%float))
                     (position pm)) num1 = false)%nat /\
            (m < 0 ->
             nltb (pairDistance (position pm)
                     (position (particleAt (-1)%float 0%float 0%float))) num1
             = false)%nat).
  { intros [|[|m]] pm Hm; simpl in Hm; [| |destruct m; discriminate];
      injection Hm as <-; split; intros Hlt; try lia.
    vm_compute. reflexivity. }
  exact (repulsion_has_range_one (withParticleCount 2 config) scenario 0
           (particleAt (-1)%float 0%float 0%float) Hc eq_refl Hfar).
Defined.
